(** * Lich5 documentation generator: splice, fingerprint and manifest

    A shallow embedding of the core of [generate_docs.py]
    (class [Lich5DocumentationGenerator]): the anchor-based comment
    insertion ([insert_comments]), the code fingerprint
    ([compute_code_hash]), the skip decision ([is_file_processed]), the
    manifest update ([mark_file_processed]) and the extraction of the
    annotation entries from a backend response ([extract_comments_json]).

    Python values are modelled as follows.
    - A [str] is the list of its Unicode code points ([N]).
    - A value produced by [json.loads] is a [pyval].
    - A call that may raise returns a [result]; the exception classes are
      the constructors of [exn].
    - The set [inserted_at_lines] is a [gset nat]; the manifest's
      [processed_files] dict is a [gmap] keyed by path strings. *)

From Stdlib Require Import ZArith NArith List Ascii String Lia.
From stdpp Require Import base option list gmap sets.

Local Open Scope N_scope.

(** ** Python strings *)

Abbreviation str := (list N).

(** A literal of the development: the code points of an ASCII string. *)
Definition py (s : string) : str := map N_of_ascii (list_ascii_of_string s).

Module PyStr.

Definition newline : N := 10.
Definition space : N := 32.

(** [str.isspace] on one code point (CPython's [Py_UNICODE_ISSPACE]). *)
Definition isspace (c : N) : bool :=
  ((9 <=? c) && (c <=? 13)) || ((28 <=? c) && (c <=? 32))
  || (c =? 133) || (c =? 160) || (c =? 5760)
  || ((8192 <=? c) && (c <=? 8202))
  || (c =? 8232) || (c =? 8233) || (c =? 8239) || (c =? 8287)
  || (c =? 12288).

Fixpoint lstrip (s : str) : str :=
  match s with
  | c :: r => if isspace c then lstrip r else s
  | [] => []
  end.

Definition rstrip (s : str) : str := rev (lstrip (rev s)).

(** [s.strip()] *)
Definition strip (s : str) : str := rstrip (lstrip s).

(** Truthiness of a string: [if s:] *)
Definition truthy (s : str) : bool :=
  match s with [] => false | _ => true end.

(** [s.startswith(p)] *)
Fixpoint startswith (p s : str) : bool :=
  match p, s with
  | [], _ => true
  | a :: p', b :: s' => (a =? b) && startswith p' s'
  | _ :: _, [] => false
  end.

(** [a in s] on strings: substring containment. *)
Fixpoint contains (a s : str) : bool :=
  startswith a s
  || match s with
     | [] => false
     | _ :: s' => contains a s'
     end.

(** [s.split('\n')]: never empty, one more piece than newlines. *)
Fixpoint split_nl (s : str) : list str :=
  match s with
  | [] => [[]]
  | c :: r =>
      if c =? newline then [] :: split_nl r
      else match split_nl r with
           | h :: t => (c :: h) :: t
           | [] => [[c]]
           end
  end.

(** ['\n'.join(ls)] *)
Fixpoint join_nl (ls : list str) : str :=
  match ls with
  | [] => []
  | [l] => l
  | l :: rest => l ++ newline :: join_nl rest
  end.

(** [' ' * n] for a non-negative count. *)
Definition spaces (n : nat) : str := replicate n space.

End PyStr.

Import PyStr.

(** ** Exceptions and JSON values *)

Inductive exn : Set :=
| AttributeError
| TypeError
| ValueError
| JSONDecodeError
| UnicodeEncodeError
| OSError
| RecursionError
| OverflowError.

Inductive result (A : Type) : Type :=
| Ok (a : A)
| Raise (e : exn).

Arguments Ok {A} a.
Arguments Raise {A} e.

(** Sequencing: an exception of the first statement skips the rest. *)
#[global] Instance result_bind : MBind result :=
  fun A B (k : A -> result B) (m : result A) =>
    match m with
    | Ok a => k a
    | Raise e => Raise e
    end.

#[global] Instance result_ret : MRet result := fun A a => Ok a.

(** What [json.loads] can return.  A float is kept as the text of its
    literal: the generator never computes with one.  A dict is the list of
    its items in insertion order, with distinct keys. *)
#[warnings="-register-all"]
Inductive pyval : Type :=
| VNone
| VBool (b : bool)
| VInt (z : Z)
| VFloat (literal : str)
| VStr (s : str)
| VList (items : list pyval)
| VDict (items : list (str * pyval)).

Fixpoint assoc (k : str) (d : list (str * pyval)) : option pyval :=
  match d with
  | [] => None
  | (k', v) :: d' => if bool_decide (k = k') then Some v else assoc k d'
  end.

(** [obj.get(key, default)]: only a dict has the method. *)
Definition dict_get (obj : pyval) (key : str) (dflt : pyval) : result pyval :=
  match obj with
  | VDict d => Ok (default dflt (assoc key d))
  | _ => Raise AttributeError
  end.

(** [v.strip()]: only a string has the method. *)
Definition str_strip (v : pyval) : result str :=
  match v with
  | VStr s => Ok (strip s)
  | _ => Raise AttributeError
  end.

(** The counts a sequence can be repeated by: those that fit the index
    type [Py_ssize_t] of a 64-bit build. *)
Definition fits_index (z : Z) : bool :=
  ((-9223372036854775808 <=? z) && (z <=? 9223372036854775807))%Z.

(** [' ' * v]: an int (or a bool, which is an int) repeats the space, a
    negative count gives the empty string and a count that does not fit
    the index type is an OverflowError; anything else is a TypeError.
    Memory is not bounded here: a count that fits is always served. *)
Definition space_times (v : pyval) : result str :=
  match v with
  | VInt z => if fits_index z then Ok (spaces (Z.to_nat z))
              else Raise OverflowError
  | VBool b => Ok (spaces (if b then 1 else 0))
  | _ => Raise TypeError
  end.

(** ** The splicer: [insert_comments] *)

(** The loop state: the working copy [lines] and the set
    [inserted_at_lines]. *)
Record splice_state : Type := SpliceState {
  lines : list str;
  inserted_at_lines : gset nat
}.

(** What the loop body logs for one entry. *)
Inductive outcome : Type :=
| Inserted (anchor_line_idx : nat) (comment_lines : list str)
    (* logger.debug "Inserted comment at line ..." *)
| SkippedInvalid
    (* logger.warning "Skipping invalid entry: missing anchor or comment" *)
| AnchorNotFound (anchor : str)
    (* logger.warning "Could not find anchor: ..." *)
| EntryError (e : exn).
    (* logger.error "Error inserting comment: ..." *)

(** [for i, line in enumerate(lines): if anchor in line and i not in
    inserted_at_lines: anchor_line_idx = i; break], started at index [i]. *)
Fixpoint find_anchor_from (i : nat) (anchor : str) (ls : list str)
    (used : gset nat) : option nat :=
  match ls with
  | [] => None
  | line :: rest =>
      if contains anchor line && negb (bool_decide (i ∈ used))
      then Some i
      else find_anchor_from (S i) anchor rest used
  end.

Definition find_anchor (anchor : str) (ls : list str) (used : gset nat)
    : option nat :=
  find_anchor_from 0 anchor ls used.

(** The loop over [comment_text.split('\n')] that builds [comment_lines]. *)
Fixpoint build_comment_lines (indent_str : str) (pieces : list str)
    : list str :=
  match pieces with
  | [] => []
  | comment_line :: rest =>
      (if truthy (strip comment_line)
       then indent_str ++ comment_line
       else [])
      :: build_comment_lines indent_str rest
  end.

(** [l.insert(i, x)] for [i >= 0]: beyond the end it appends. *)
Definition list_insert_at (i : nat) (x : str) (l : list str) : list str :=
  take i l ++ x :: drop i l.

(** [for offset, comment_line in enumerate(comment_lines):
      lines.insert(anchor_line_idx + offset, comment_line)],
    started at [offset]. *)
Fixpoint insert_block_from (offset : nat) (anchor_line_idx : nat)
    (comment_lines : list str) (ls : list str) : list str :=
  match comment_lines with
  | [] => ls
  | comment_line :: rest =>
      insert_block_from (S offset) anchor_line_idx rest
        (list_insert_at (anchor_line_idx + offset) comment_line ls)
  end.

(** The first three statements of the [try]: the stripped anchor, the
    indent as given and the stripped comment text. *)
Definition entry_fields (entry : pyval) : result (str * pyval * str) :=
  a ← dict_get entry (py "anchor") (VStr []);
  anchor ← str_strip a;
  indent ← dict_get entry (py "indent") (VInt 0);
  c ← dict_get entry (py "comment") (VStr []);
  comment_text ← str_strip c;
  Ok (anchor, indent, comment_text).

(** The block built for a matched entry. *)
Definition comment_block (indent : pyval) (comment_text : str)
    : result (list str) :=
  indent_str ← space_times indent;
  Ok (build_comment_lines indent_str (split_nl comment_text)).

(** The body of the [try] for one entry. *)
Definition try_entry (st : splice_state) (entry : pyval)
    : result (splice_state * outcome) :=
  '(anchor, indent, comment_text) ← entry_fields entry;
  if negb (truthy anchor) || negb (truthy comment_text)
  then Ok (st, SkippedInvalid)
  else
    match find_anchor anchor (lines st) (inserted_at_lines st) with
    | None => Ok (st, AnchorNotFound anchor)
    | Some anchor_line_idx =>
        comment_lines ← comment_block indent comment_text;
        Ok (SpliceState
              (insert_block_from 0 anchor_line_idx comment_lines (lines st))
              ({[anchor_line_idx]} ∪ inserted_at_lines st),
            Inserted anchor_line_idx comment_lines)
    end.

(** One iteration: [except Exception] logs and goes on with the next
    entry.  Every statement that can raise comes before the first
    mutation of [lines], so the state is the one the iteration began with. *)
Definition process_entry (st : splice_state) (entry : pyval)
    : splice_state * outcome :=
  match try_entry st entry with
  | Ok r => r
  | Raise e => (st, EntryError e)
  end.

(** The [for entry in comments] loop, with the log it writes. *)
Fixpoint process_entries (st : splice_state) (comments : list pyval)
    : splice_state * list outcome :=
  match comments with
  | [] => (st, [])
  | entry :: rest =>
      let '(st1, o) := process_entry st entry in
      let '(st2, os) := process_entries st1 rest in
      (st2, o :: os)
  end.

Definition initial_state (original_content : str) : splice_state :=
  SpliceState (split_nl original_content) ∅.

Definition insert_comments (original_content : str) (comments : list pyval)
    : str :=
  match comments with
  | [] => original_content
  | _ => join_nl (lines (process_entries (initial_state original_content)
                                           comments).1)
  end.

(** The log of a call. *)
Definition insert_comments_log (original_content : str)
    (comments : list pyval) : list outcome :=
  (process_entries (initial_state original_content) comments).2.

(** ** SHA-256 and UTF-8, as [hashlib] and [str.encode] compute them *)

Module Sha256.

Definition w32 (x : N) : N := x mod 4294967296.
Definition add32 (x y : N) : N := w32 (x + y).
Definition rotr (n x : N) : N :=
  N.lor (N.shiftr x n) (w32 (N.shiftl x (32 - n))).
Definition not32 (x : N) : N := N.lxor x 4294967295.

Definition Ch (x y z : N) : N := N.lxor (N.land x y) (N.land (not32 x) z).
Definition Maj (x y z : N) : N :=
  N.lxor (N.lxor (N.land x y) (N.land x z)) (N.land y z).
Definition Sigma0 (x : N) : N :=
  N.lxor (N.lxor (rotr 2 x) (rotr 13 x)) (rotr 22 x).
Definition Sigma1 (x : N) : N :=
  N.lxor (N.lxor (rotr 6 x) (rotr 11 x)) (rotr 25 x).
Definition sigma0 (x : N) : N :=
  N.lxor (N.lxor (rotr 7 x) (rotr 18 x)) (N.shiftr x 3).
Definition sigma1 (x : N) : N :=
  N.lxor (N.lxor (rotr 17 x) (rotr 19 x)) (N.shiftr x 10).

(** The largest [r] below [2 ^ bits] above [acc] with [r ^ k <= n], found
    bit by bit: the integer [k]-th root of [n]. *)
Fixpoint root_search (k n : N) (bits : nat) (acc : N) : N :=
  match bits with
  | O => acc
  | S b =>
      let cand := acc + 2 ^ N.of_nat b in
      if cand ^ k <=? n then root_search k n b cand
      else root_search k n b acc
  end.

(** The first 32 bits of the fractional part of the [k]-th root of [p]. *)
Definition root_fraction (k p : N) : N :=
  w32 (root_search k (p * 2 ^ (32 * k)) 36 0).

Definition primes64 : list N :=
  [ 2; 3; 5; 7; 11; 13; 17; 19; 23; 29; 31; 37; 41; 43; 47; 53;
    59; 61; 67; 71; 73; 79; 83; 89; 97; 101; 103; 107; 109; 113; 127; 131;
    137; 139; 149; 151; 157; 163; 167; 173; 179; 181; 191; 193; 197; 199;
    211; 223; 227; 229; 233; 239; 241; 251; 257; 263; 269; 271; 277; 281;
    283; 293; 307; 311 ].

(** The round constants: from the cube roots of the first 64 primes. *)
Definition K : list N := Eval vm_compute in map (root_fraction 3) primes64.

(** The eight working words. *)
Record words8 : Set := W8 {
  wa : N; wb : N; wc : N; wd : N; we : N; wf : N; wg : N; wh : N
}.

(** The initial hash value: from the square roots of the first 8 primes. *)
Definition H0 : words8 := Eval vm_compute in
  W8 (root_fraction 2 2) (root_fraction 2 3) (root_fraction 2 5)
     (root_fraction 2 7) (root_fraction 2 11) (root_fraction 2 13)
     (root_fraction 2 17) (root_fraction 2 19).

(** Big-endian 32-bit words of a block of bytes. *)
Fixpoint be_words (bs : list N) : list N :=
  match bs with
  | b0 :: b1 :: b2 :: b3 :: rest =>
      (b0 * 16777216 + b1 * 65536 + b2 * 256 + b3) :: be_words rest
  | _ => []
  end.

(** The message schedule, most recent word first: [n] more words. *)
Fixpoint extend (n : nat) (rw : list N) : list N :=
  match n with
  | O => rw
  | S n' =>
      let w := add32 (add32 (sigma1 (nth 1 rw 0)) (nth 6 rw 0))
                     (add32 (sigma0 (nth 14 rw 0)) (nth 15 rw 0)) in
      extend n' (w :: rw)
  end.

Definition schedule (block : list N) : list N :=
  rev (extend 48 (rev (be_words block))).

Definition round (s : words8) (kw : N * N) : words8 :=
  let t1 := add32 (add32 (add32 (wh s) (Sigma1 (we s)))
                         (add32 (Ch (we s) (wf s) (wg s)) kw.1)) kw.2 in
  let t2 := add32 (Sigma0 (wa s)) (Maj (wa s) (wb s) (wc s)) in
  W8 (add32 t1 t2) (wa s) (wb s) (wc s) (add32 (wd s) t1) (we s) (wf s) (wg s).

Definition compress (h : words8) (block : list N) : words8 :=
  let s := fold_left round (zip K (schedule block)) h in
  W8 (add32 (wa h) (wa s)) (add32 (wb h) (wb s))
     (add32 (wc h) (wc s)) (add32 (wd h) (wd s))
     (add32 (we h) (we s)) (add32 (wf h) (wf s))
     (add32 (wg h) (wg s)) (add32 (wh h) (wh s)).

(** Big-endian bytes of a 64-bit length. *)
Definition be64 (n : N) : list N :=
  map (fun i => (N.shiftr n (8 * i)) mod 256) [7; 6; 5; 4; 3; 2; 1; 0].

Definition pad (msg : list N) : list N :=
  let len := length msg in
  let zeros := ((64 - (len + 9) mod 64) mod 64)%nat in
  msg ++ 128 :: replicate zeros 0 ++ be64 (8 * N.of_nat len).

Fixpoint blocks (fuel : nat) (bs : list N) : list (list N) :=
  match fuel, bs with
  | S fuel', _ :: _ => take 64 bs :: blocks fuel' (drop 64 bs)
  | _, _ => []
  end.

Definition sha256 (msg : list N) : words8 :=
  let p := pad msg in
  fold_left compress (blocks (length p) p) H0.

Definition hexdigit (d : N) : N := if d <? 10 then 48 + d else 87 + d.

Definition hex8 (w : N) : str :=
  [ hexdigit (N.shiftr w 28 mod 16); hexdigit (N.shiftr w 24 mod 16);
    hexdigit (N.shiftr w 20 mod 16); hexdigit (N.shiftr w 16 mod 16);
    hexdigit (N.shiftr w 12 mod 16); hexdigit (N.shiftr w 8 mod 16);
    hexdigit (N.shiftr w 4 mod 16); hexdigit (w mod 16) ].

(** [hashlib.sha256(data).hexdigest()] *)
Definition hexdigest (msg : list N) : str :=
  let h := sha256 msg in
  hex8 (wa h) ++ hex8 (wb h) ++ hex8 (wc h) ++ hex8 (wd h)
  ++ hex8 (we h) ++ hex8 (wf h) ++ hex8 (wg h) ++ hex8 (wh h).


End Sha256.

Module Utf8.

(** The bytes of one code point; a surrogate cannot be encoded. *)
Definition encode_char (c : N) : result (list N) :=
  if c <? 0x80 then Ok [c]
  else if c <? 0x800 then Ok [0xC0 + c / 64; 0x80 + c mod 64]
  else if (0xD800 <=? c) && (c <=? 0xDFFF) then Raise UnicodeEncodeError
  else if c <? 0x10000 then
    Ok [0xE0 + c / 4096; 0x80 + (c / 64) mod 64; 0x80 + c mod 64]
  else if c <? 0x110000 then
    Ok [0xF0 + c / 262144; 0x80 + (c / 4096) mod 64;
        0x80 + (c / 64) mod 64; 0x80 + c mod 64]
  else Raise UnicodeEncodeError.

(** [s.encode('utf-8')] *)
Fixpoint encode (s : str) : result (list N) :=
  match s with
  | [] => Ok []
  | c :: r =>
      bs ← encode_char c;
      rest ← encode r;
      Ok (bs ++ rest)
  end.

(** A string that [encode] accepts: no surrogate, every element a
    code point. *)
Definition encodable_char (c : N) : bool :=
  (c <? 0x110000) && negb ((0xD800 <=? c) && (c <=? 0xDFFF)).

End Utf8.

(** ** The fingerprint: [compute_code_hash] *)

Definition yard_tags : list str :=
  [py "@param"; py "@return"; py "@example"; py "@note"; py "@see";
   py "@yield"].

(** [any(tag in stripped for tag in [...])] *)
Definition has_yard_tag (stripped : str) : bool :=
  existsb (fun tag => contains tag stripped) yard_tags.

(** [len(stripped) > 1 and stripped[1] == ' '] *)
Definition second_is_space (stripped : str) : bool :=
  match stripped with
  | _ :: c :: _ => c =? space
  | _ => false
  end.

(** The [if]/[elif]/[else] of the loop body: is [line] appended to
    [code_lines]? *)
Definition keeps_line (line : str) : bool :=
  let stripped := strip line in
  if startswith (py "#") stripped && has_yard_tag stripped then false
  else if startswith (py "#") stripped && second_is_space stripped then
    if startswith (py "#!") stripped
       || contains (py "coding:") stripped
       || contains (py "encoding:") stripped
    then true
    else false
  else true.

(** The [for line in lines] loop. *)
Fixpoint code_lines_of (ls : list str) : list str :=
  match ls with
  | [] => []
  | line :: rest =>
      if keeps_line line then line :: code_lines_of rest
      else code_lines_of rest
  end.

Definition compute_code_hash (content : str) : result str :=
  let code_content := join_nl (code_lines_of (split_nl content)) in
  bytes ← Utf8.encode code_content;
  Ok (take 16 (Sha256.hexdigest bytes)).

(** ** The manifest and the skip decision *)

(** A [pathlib.Path], seen through the two observations the generator
    makes of it: [str(file_path)] and [file_path.name]. *)
Record Path : Type := MkPath {
  path_str : str;
  path_name : str
}.

(** A file on disk: [open(...).read()] returns its text or raises. *)
Inductive file : Type :=
| Readable (content : str)
| Unreadable (e : exn).

Abbreviation filesystem := (gmap str file).

(** [p.exists()] *)
Definition path_exists (fs : filesystem) (p : str) : bool :=
  bool_decide (is_Some (fs !! p)).

(** [with open(p, 'r', encoding='utf-8') as f: f.read()] *)
Definition read_text (fs : filesystem) (p : str) : result str :=
  match fs !! p with
  | Some (Readable content) => Ok content
  | Some (Unreadable e) => Raise e
  | None => Raise OSError
  end.

(** One value of the [processed_files] dict. *)
Record manifest_entry : Type := ManifestEntry {
  entry_timestamp : str;
  provider : str;
  content_hash : option str;   (* None when the hash could not be computed *)
  file_name : str
}.

(** The manifest dict.  A key that a loaded manifest may lack is an
    option: the code tests for ['processed_files'] and ['failed_files']. *)
Record manifest_dict : Type := Manifest {
  processed_files : option (gmap str manifest_entry);
  failed_files : option (list str);
  timestamp : str
}.

(** The fields of the generator these methods read or write. *)
Record generator : Type := Generator {
  incremental : bool;
  provider_name : str;
  output_dir : str;
  manifest : manifest_dict
}.

(** [self.incremental = incremental and not force_rebuild] *)
Definition init_incremental (incremental force_rebuild : bool) : bool :=
  incremental && negb force_rebuild.

(** [self.output_dir / 'documented' / file_path.name] *)
Definition documented_file (g : generator) (file_path : Path) : str :=
  output_dir g ++ py "/documented/" ++ path_name file_path.

(** The [try] block of [is_file_processed]: the fresh hash and the stored
    one. *)
Definition current_and_stored (fs : filesystem) (relative_path : str)
    (stored_info : manifest_entry) : result (str * option str) :=
  current_content ← read_text fs relative_path;
  current_hash ← compute_code_hash current_content;
  Ok (current_hash, content_hash stored_info).

Definition is_file_processed (g : generator) (fs : filesystem)
    (file_path : Path) : bool :=
  if negb (incremental g) then false
  else
    let relative_path := path_str file_path in
    match default ∅ (processed_files (manifest g)) !! relative_path with
    | Some stored_info =>
        if negb (path_exists fs (documented_file g file_path)) then false
        else
          match current_and_stored fs relative_path stored_info with
          | Ok (current_hash, stored_hash) =>
              if bool_decide (Some current_hash ≠ stored_hash) then false
              else true
          | Raise _ => false
          end
    | None => false
    end.

(** The persisted copy of the manifest ([manifest.json]); a write may
    fail, which [save_manifest] logs and ignores. *)
Record disk : Type := Disk {
  files : filesystem;
  manifest_json : option manifest_dict;
  manifest_writable : bool
}.

Definition save_manifest (m : manifest_dict) (d : disk) : disk :=
  if manifest_writable d
  then Disk (files d) (Some m) (manifest_writable d)
  else d.

Definition set_manifest (g : generator) (m : manifest_dict) : generator :=
  Generator (incremental g) (provider_name g) (output_dir g) m.

(** The hash stored on success: of [content] when one is given, else of
    the file read again (a failure there is logged and stores [None]). *)
Definition success_hash (d : disk) (file_path : Path) (content : option str)
    : result (option str) :=
  match content with
  | Some (c :: cs) => h ← compute_code_hash (c :: cs); Ok (Some h)
  | _ =>
      match (txt ← read_text (files d) (path_str file_path);
             compute_code_hash txt) with
      | Ok h => Ok (Some h)
      | Raise _ => Ok None
      end
  end.

(** [mark_file_processed(file_path, success, content)] at time [now]:
    the new generator and disk, and the exception that escaped, if any. *)
Definition mark_file_processed (g : generator) (d : disk) (now : str)
    (file_path : Path) (success : bool) (content : option str)
    : generator * disk * option exn :=
  let m := manifest g in
  let relative_path := path_str file_path in
  if success then
    let pf := default ∅ (processed_files m) in
    match success_hash d file_path content with
    | Ok h =>
        let info := ManifestEntry now (provider_name g) h
                                  (path_name file_path) in
        let m' := Manifest (Some (<[relative_path := info]> pf))
                           (failed_files m) (timestamp m) in
        (set_manifest g m', save_manifest m' d, None)
    | Raise e =>
        (set_manifest g (Manifest (Some pf) (failed_files m) (timestamp m)),
         d, Some e)
    end
  else
    let ff := default [] (failed_files m) in
    let ff' := if bool_decide (relative_path ∈ ff) then ff
               else ff ++ [relative_path] in
    let m' := Manifest (processed_files m) (Some ff') (timestamp m) in
    (set_manifest g m', save_manifest m' d, None).

(** ** [json.loads] and the two regular expressions *)

(** The two limits of the interpreter the decoder can run into: the
    number of nested calls still allowed where [json.loads] is called
    (what is left of the recursion limit), and
    [sys.get_int_max_str_digits()], where 0 stands for no limit. *)
Record limits : Set := Limits {
  recursion_budget : nat;
  int_max_str_digits : nat
}.

Module Json.

(** The outcome of a scanner: a value and the text after it, a
    [JSONDecodeError], another exception ([RecursionError] of a
    container nested too deep, [ValueError] of an integer literal with
    too many digits), or the fuel of this model used up. *)
Inductive pres (A : Type) : Type :=
| POk (a : A) (rest : str)
| PErr
| PRaise (e : exn)
| PFuel.

Arguments POk {A} a rest.
Arguments PErr {A}.
Arguments PRaise {A} e.
Arguments PFuel {A}.

(** JSON whitespace: space, tab, line feed, carriage return. *)
Definition is_ws (c : N) : bool :=
  (c =? 32) || (c =? 9) || (c =? 10) || (c =? 13).

Fixpoint skip_ws (s : str) : str :=
  match s with
  | c :: r => if is_ws c then skip_ws r else s
  | [] => []
  end.

Definition is_digit (c : N) : bool := (48 <=? c) && (c <=? 57).

Definition hexval (c : N) : option N :=
  if (48 <=? c) && (c <=? 57) then Some (c - 48)
  else if (97 <=? c) && (c <=? 102) then Some (c - 87)
  else if (65 <=? c) && (c <=? 70) then Some (c - 55)
  else None.

Definition hex4 (a b c d : N) : option N :=
  x ← hexval a; y ← hexval b; z ← hexval c; w ← hexval d;
  Some (x * 4096 + y * 256 + z * 16 + w).

(** The character of a one-letter escape. *)
Definition unescape (c : N) : option N :=
  if c =? 34 then Some 34          (* quote *)
  else if c =? 92 then Some 92     (* backslash *)
  else if c =? 47 then Some 47     (* slash *)
  else if c =? 98 then Some 8      (* b: backspace *)
  else if c =? 102 then Some 12    (* f: form feed *)
  else if c =? 110 then Some 10    (* n: line feed *)
  else if c =? 114 then Some 13    (* r: carriage return *)
  else if c =? 116 then Some 9     (* t: tab *)
  else None.

Definition is_high_surrogate (c : N) : bool := (0xD800 <=? c) && (c <=? 0xDBFF).
Definition is_low_surrogate (c : N) : bool := (0xDC00 <=? c) && (c <=? 0xDFFF).
Definition join_surrogates (hi lo : N) : N :=
  0x10000 + (hi - 0xD800) * 1024 + (lo - 0xDC00).

(** The text of a string literal after its opening quote (strict mode):
    the decoded string and what follows the closing quote. *)
Fixpoint scan_string (s : str) : option (str * str) :=
  match s with
  | [] => None
  | c :: r =>
      if c =? 34 then Some ([], r)
      else if c =? 92 then
        match r with
        | [] => None
        | e :: r1 =>
            if e =? 117 then
              match r1 with
              | a :: b :: c1 :: d :: r2 =>
                  match hex4 a b c1 d with
                  | None => None
                  | Some u =>
                      match r2 with
                      | bs :: lu :: a' :: b' :: c' :: d' :: r3 =>
                          if is_high_surrogate u && (bs =? 92) && (lu =? 117)
                          then
                            match hex4 a' b' c' d' with
                            | None => None
                            | Some u2 =>
                                if is_low_surrogate u2
                                then '(t, rest) ← scan_string r3;
                                     Some (join_surrogates u u2 :: t, rest)
                                else '(t, rest) ← scan_string r2;
                                     Some (u :: t, rest)
                            end
                          else '(t, rest) ← scan_string r2;
                               Some (u :: t, rest)
                      | _ => '(t, rest) ← scan_string r2;
                             Some (u :: t, rest)
                      end
                  end
              | _ => None
              end
            else
              match unescape e with
              | Some x => '(t, rest) ← scan_string r1; Some (x :: t, rest)
              | None => None
              end
        end
      else if c <? 32 then None
      else '(t, rest) ← scan_string r; Some (c :: t, rest)
  end.

(** The longest prefix of digits and the rest. *)
Fixpoint span_digits (s : str) : str * str :=
  match s with
  | c :: r =>
      if is_digit c then let '(ds, rest) := span_digits r in (c :: ds, rest)
      else ([], s)
  | [] => ([], [])
  end.

Definition decimal (ds : str) : Z :=
  fold_left (fun acc c => (acc * 10 + Z.of_N (c - 48))%Z) ds 0%Z.

(** An optional minus, then 0 or a digit string without leading zero:
    the sign, the digits and the rest. *)
Definition int_part (s : str) : option (bool * str * str) :=
  let '(neg, s1) := match s with
                    | c :: r => if c =? 45 then (true, r) else (false, s)
                    | [] => (false, s)
                    end in
  match s1 with
  | c :: r =>
      if c =? 48 then Some (neg, [c], r)
      else if is_digit c then
        let '(ds, rest) := span_digits r in Some (neg, c :: ds, rest)
      else None
  | [] => None
  end.

(** An optional fraction: a dot and at least one digit. *)
Definition frac_part (s : str) : str * str :=
  match s with
  | dot :: r =>
      if dot =? 46 then
        match span_digits r with
        | ([], _) => ([], s)
        | (ds, rest) => (dot :: ds, rest)
        end
      else ([], s)
  | [] => ([], s)
  end.

(** An optional exponent: e or E, an optional sign, at least one digit. *)
Definition exp_part (s : str) : str * str :=
  match s with
  | e :: r =>
      if (e =? 101) || (e =? 69) then
        let '(sign, r1) := match r with
                           | c :: r' => if (c =? 45) || (c =? 43)
                                        then ([c], r') else ([], r)
                           | [] => ([], r)
                           end in
        match span_digits r1 with
        | ([], _) => ([], s)
        | (ds, rest) => (e :: sign ++ ds, rest)
        end
      else ([], s)
  | [] => ([], s)
  end.

(** [int(text)] on the digits of a literal: more than 640 digits are
    checked against the limit, when there is one. *)
Definition too_many_digits (max_digits : nat) (ds : str) : bool :=
  (640 <? length ds)%nat && (0 <? max_digits)%nat
  && (max_digits <? length ds)%nat.

Definition int_of_literal (max_digits : nat) (neg : bool) (ds : str)
    : result pyval :=
  if too_many_digits max_digits ds then Raise ValueError
  else Ok (VInt (if neg then Z.opp (decimal ds) else decimal ds)).

(** A number: an [int] without fraction and exponent, else a [float].
    The literal is matched first and converted afterwards. *)
Definition match_number (max_digits : nat) (s : str)
    : option (result pyval * str) :=
  match int_part s with
  | None => None
  | Some (neg, ds, r) =>
      let '(frac, r1) := frac_part r in
      let '(ex, r2) := exp_part r1 in
      match frac, ex with
      | [], [] => Some (int_of_literal max_digits neg ds, r2)
      | _, _ =>
          Some (Ok (VFloat ((if neg : bool then [45] else [])
                            ++ ds ++ frac ++ ex)),
                r2)
      end
  end.

(** [d[k] = v] on the item list of a dict. *)
Fixpoint dict_set (k : str) (v : pyval) (d : list (str * pyval))
    : list (str * pyval) :=
  match d with
  | [] => [(k, v)]
  | (k', v') :: d' =>
      if bool_decide (k = k') then (k, v) :: d'
      else (k', v') :: dict_set k v d'
  end.

(** A literal word at the head of the text. *)
Definition literal (w : string) (v : pyval) (s : str) : option (pyval * str) :=
  if startswith (py w) s then Some (v, drop (length (py w)) s) else None.

(** The constants (no two of them, and no number, begin alike), then
    the numbers. *)
Definition scan_atom (max_digits : nat) (s : str) : pres pyval :=
  match literal "null" VNone s ∪ literal "true" (VBool true) s
        ∪ literal "false" (VBool false) s
        ∪ literal "NaN" (VFloat (py "NaN")) s
        ∪ literal "Infinity" (VFloat (py "Infinity")) s
        ∪ literal "-Infinity" (VFloat (py "-Infinity")) s with
  | Some (v, r) => POk v r
  | None =>
      match match_number max_digits s with
      | Some (Ok v, r) => POk v r
      | Some (Raise e, _) => PRaise e
      | None => PErr
      end
  end.

(** [scan_once] with the loops of the array and the object decoders.
    Entering an object or an array takes one of the [depth] nested calls
    still allowed; with none left it is a RecursionError. *)
Fixpoint scan_once (max_digits fuel depth : nat) (s : str) : pres pyval :=
  match fuel with
  | O => PFuel
  | S f =>
      match s with
      | [] => PErr
      | c :: r =>
          if c =? 34 then
            match scan_string r with
            | Some (v, rest) => POk (VStr v) rest
            | None => PErr
            end
          else if c =? 123 then
            match depth with
            | O => PRaise RecursionError
            | S d =>
                match skip_ws r with
                | c' :: r' => if c' =? 125 then POk (VDict []) r'
                              else object_items max_digits f d (c' :: r') []
                | [] => PErr
                end
            end
          else if c =? 91 then
            match depth with
            | O => PRaise RecursionError
            | S d =>
                match skip_ws r with
                | c' :: r' => if c' =? 93 then POk (VList []) r'
                              else array_items max_digits f d (c' :: r') []
                | [] => PErr
                end
            end
          else scan_atom max_digits s
      end
  end
with array_items (max_digits fuel depth : nat) (s : str) (acc : list pyval)
    : pres pyval :=
  match fuel with
  | O => PFuel
  | S f =>
      match scan_once max_digits f depth s with
      | POk v r =>
          match skip_ws r with
          | c :: r' =>
              if c =? 93 then POk (VList (rev (v :: acc))) r'
              else if c =? 44
              then array_items max_digits f depth (skip_ws r') (v :: acc)
              else PErr
          | [] => PErr
          end
      | PErr => PErr
      | PRaise e => PRaise e
      | PFuel => PFuel
      end
  end
with object_items (max_digits fuel depth : nat) (s : str)
    (acc : list (str * pyval)) : pres pyval :=
  match fuel with
  | O => PFuel
  | S f =>
      match s with
      | q :: r =>
          if q =? 34 then
            match scan_string r with
            | Some (k, r1) =>
                match skip_ws r1 with
                | colon :: r2 =>
                    if colon =? 58 then
                      match scan_once max_digits f depth (skip_ws r2) with
                      | POk v r3 =>
                          match skip_ws r3 with
                          | c :: r4 =>
                              if c =? 125
                              then POk (VDict (dict_set k v acc)) r4
                              else if c =? 44
                              then object_items max_digits f depth
                                     (skip_ws r4) (dict_set k v acc)
                              else PErr
                          | [] => PErr
                          end
                      | PErr => PErr
                      | PRaise e => PRaise e
                      | PFuel => PFuel
                      end
                    else PErr
                | [] => PErr
                end
            | None => PErr
            end
          else PErr
      | [] => PErr
      end
  end.

(** [json.loads(s)] with the default decoder: a leading BOM, a syntax
    error and trailing text after the value are all [JSONDecodeError];
    the exceptions of the two limits pass through.  The fuel is enough
    for every text, see [scan_fuel]. *)
Definition loads (lim : limits) (s : str) : result pyval :=
  if startswith [0xFEFF] s then Raise JSONDecodeError
  else
    match scan_once (int_max_str_digits lim) (2 * length s + 2)
                    (recursion_budget lim) (skip_ws s) with
    | POk v r =>
        match skip_ws r with
        | [] => Ok v
        | _ => Raise JSONDecodeError
        end
    | PErr => Raise JSONDecodeError
    | PRaise e => Raise e
    | PFuel => Raise RecursionError
    end.

End Json.

Module Regex.

(** The text before the first occurrence of [pat] in [s]. *)
Fixpoint before_first (pat s : str) : option str :=
  if startswith pat s then Some []
  else match s with
       | [] => None
       | c :: r => cons c <$> before_first pat r
       end.

(** The text after the first occurrence of [pat] in [s]. *)
Fixpoint after_first (pat s : str) : option str :=
  if startswith pat s then Some (drop (length pat) s)
  else match s with
       | [] => None
       | _ :: r => after_first pat r
       end.

Definition fence_open : str := py "```json".
Definition fence_close : str := py "```".

(** [re.findall(r'```json\s*(.*?)```', response, re.DOTALL)[0]]: after
    the first opening fence, the white space is skipped and the group is
    the text up to the next three backquotes; [None] when [findall]
    returns the empty list. *)
Definition first_json_block (response : str) : option str :=
  rest ← after_first fence_open response;
  before_first fence_close (lstrip rest).

(** [\}\s*\]] at the head of [s]: the length of the match. *)
Definition close_here (s : str) : option nat :=
  match s with
  | c :: r =>
      if c =? 125 then
        match lstrip r with
        | c' :: r' => if c' =? 93
                      then Some (length s - length r')%nat else None
        | [] => None
        end
      else None
  | [] => None
  end.

(** [.*?\}\s*\]] at the head of [s]: the shortest match. *)
Fixpoint lazy_close (s : str) : option str :=
  match close_here s with
  | Some n => Some (take n s)
  | None =>
      match s with
      | [] => None
      | c :: r => cons c <$> lazy_close r
      end
  end.

(** [\[\s*\{] at the head of [s]: the match and the rest. *)
Definition open_here (s : str) : option (str * str) :=
  match s with
  | c :: r =>
      if c =? 91 then
        match lstrip r with
        | c' :: r' => if c' =? 123
                      then Some (take (length s - length r') s, r')
                      else None
        | [] => None
        end
      else None
  | [] => None
  end.

Definition array_here (s : str) : option str :=
  '(o, r) ← open_here s;
  body ← lazy_close r;
  Some (o ++ body).

(** [re.search(r'\[\s*\{.*?\}\s*\]', response, re.DOTALL).group(0)]:
    the leftmost start that has a match. *)
Fixpoint search_array (s : str) : option str :=
  match array_here s with
  | Some m => Some m
  | None =>
      match s with
      | [] => None
      | _ :: r => search_array r
      end
  end.

End Regex.

(** ** Ingestion: [extract_comments_json] *)

(** The text handed to [json.loads]. *)
Definition json_text_of (response : str) : str :=
  match Regex.first_json_block response with
  | Some block => strip block
  | None =>
      match Regex.search_array response with
      | Some m => m
      | None => strip response
      end
  end.

(** The [try]: [raise ValueError] is inside it, but the handler is for
    [json.JSONDecodeError] only, so that neither it nor what the decoder
    raises at a limit of the interpreter is caught here. *)
Definition extract_comments_json (lim : limits) (response : str)
    : result (list pyval) :=
  match Json.loads lim (json_text_of response) with
  | Ok (VList comments) => Ok comments
  | Ok _ => Raise ValueError
  | Raise JSONDecodeError => Ok []
  | Raise e => Raise e
  end.

(** [process_file] from the backend's response on: [None] when the file
    is counted as failed ([except Exception], or no entry extracted). *)
Definition process_response (lim : limits) (original_content response : str)
    : option str :=
  match extract_comments_json lim response with
  | Ok [] => None
  | Ok comments => Some (insert_comments original_content comments)
  | Raise _ => None
  end.

(** ** Loading the manifest: [load_manifest] *)

(** [len(v)]: a string, a list and a dict have a length. *)
Definition py_len (v : pyval) : result nat :=
  match v with
  | VStr s => Ok (length s)
  | VList items => Ok (length items)
  | VDict items => Ok (length items)
  | _ => Raise TypeError
  end.

(** The manifest of a first run, created at time [now]. *)
Definition empty_manifest (now : str) : pyval :=
  VDict [(py "processed_files", VDict []); (py "failed_files", VList []);
         (py "timestamp", VStr now)].

(** The [try] of [load_manifest]: the file is decoded, and the log line
    takes [len(manifest.get('processed_files', []))]. *)
Definition try_load_manifest (lim : limits) (fs : filesystem)
    (manifest_file : str) : result pyval :=
  txt ← read_text fs manifest_file;
  loaded ← Json.loads lim txt;
  pf ← dict_get loaded (py "processed_files") (VList []);
  _ ← py_len pf;
  Ok loaded.

(** [load_manifest()]: what [json.load] returned, as it is; the record
    [manifest_dict] above is the shape the generator itself writes. *)
Definition load_manifest (lim : limits) (fs : filesystem)
    (manifest_file now : str) : pyval :=
  if path_exists fs manifest_file then
    match try_load_manifest lim fs manifest_file with
    | Ok loaded => loaded
    | Raise _ => empty_manifest now
    end
  else empty_manifest now.

(** ** The comment sidecar: [generate_yard_docs] *)

(** [line.strip().startswith('#')] *)
Definition is_yard_line (line : str) : bool := startswith (py "#") (strip line).

(** The loop that collects [yard_comments]. *)
Fixpoint yard_comments_of (ls : list str) : list str :=
  match ls with
  | [] => []
  | line :: rest =>
      if is_yard_line line then line :: yard_comments_of rest
      else yard_comments_of rest
  end.

(** The text written for one documented file, if any is written. *)
Definition yard_text (documented_code : str) : option str :=
  match yard_comments_of (split_nl documented_code) with
  | [] => None
  | c :: cs => Some (join_nl (c :: cs))
  end.

(** One value of [self.documentation]. *)
Record doc_record : Type := DocRecord {
  original : str;
  documented : str;
  doc_timestamp : str
}.

(** The sidecar texts of a run, by file name; the text of [name] goes to
    [yard/name.yard]. *)
Definition generate_yard_docs (documentation : gmap str doc_record)
    : gmap str str :=
  omap (λ doc_data, yard_text (documented doc_data)) documentation.

(** ** One file: [process_file] and [_process_single_file] *)

(** The generator with the two collections a run fills:
    [self.documentation] and [self.failed_files]. *)
Record run_state : Type := RunState {
  gen : generator;
  documentation : gmap str doc_record;
  self_failed_files : list str
}.

(** The backend, called with the prompts made from the file name and the
    source text: its answer, or the exception it raised. *)
Abbreviation backend := (str → str → result str).

(** The [try] of [process_file] up to the entries. *)
Definition read_and_extract (lim : limits) (fs : filesystem)
    (generate : backend) (file_path : Path) : result (str * list pyval) :=
  original_content ← read_text fs (path_str file_path);
  response ← generate (path_name file_path) original_content;
  comments ← extract_comments_json lim response;
  Ok (original_content, comments).

(** [process_file(file_path)] with the clock at [now]: no entry and any
    exception append the file name to [self.failed_files]. *)
Definition process_file (lim : limits) (rs : run_state) (fs : filesystem)
    (generate : backend) (now : str) (file_path : Path)
    : run_state * option str :=
  let name := path_name file_path in
  match read_and_extract lim fs generate file_path with
  | Ok (original_content, c :: cs) =>
      let documented_code := insert_comments original_content (c :: cs) in
      (RunState (gen rs)
                (<[name := DocRecord original_content documented_code now]>
                   (documentation rs))
                (self_failed_files rs),
       Some documented_code)
  | _ =>
      (RunState (gen rs) (documentation rs) (self_failed_files rs ++ [name]),
       None)
  end.

(** What a text file gives back when read after [content] was written
    (on a system whose line separator is the line feed): both [\r\n] and
    a lone [\r] come back as [\n]. *)
Fixpoint universal_newlines (content : str) : str :=
  match content with
  | [] => []
  | c :: r =>
      if c =? 13 then
        match r with
        | c' :: r' =>
            if c' =? 10 then newline :: universal_newlines r'
            else newline :: universal_newlines r
        | [] => [newline]
        end
      else c :: universal_newlines r
  end.

(** [with open(p, 'w', encoding='utf-8') as f: f.write(content)]: a path
    that cannot be opened leaves the disk as it was; a text that cannot
    be encoded leaves an empty file. *)
Definition write_text (can_write : str → bool) (d : disk) (p content : str)
    : disk * option exn :=
  if can_write p then
    match Utf8.encode content with
    | Ok _ =>
        (Disk (<[p := Readable (universal_newlines content)]> (files d))
              (manifest_json d) (manifest_writable d),
         None)
    | Raise e =>
        (Disk (<[p := Readable []]> (files d))
              (manifest_json d) (manifest_writable d),
         Some e)
    end
  else (d, Some OSError).

Definition set_gen (rs : run_state) (g : generator) : run_state :=
  RunState g (documentation rs) (self_failed_files rs).

(** The [else] and the [except] of the worker: the failure is recorded. *)
Definition record_failed (rs : run_state) (d : disk) (now : str)
    (file_path : Path) : run_state * disk * bool :=
  let '(g, d', _) := mark_file_processed (gen rs) d now file_path false None in
  (set_gen rs g, d', false).

(** [_process_single_file(file_path, index, total)]: [now.1] is the
    clock when the documentation is stored, [now.2] when the manifest is
    updated. *)
Definition _process_single_file (lim : limits) (can_write : str → bool)
    (generate : backend) (now : str * str) (rs : run_state) (d : disk)
    (file_path : Path) : run_state * disk * bool :=
  let '(rs1, result) :=
    process_file lim rs (files d) generate now.1 file_path in
  match result with
  | Some (c :: r) =>
      match write_text can_write d (documented_file (gen rs1) file_path)
                       (c :: r) with
      | (d1, None) =>
          match mark_file_processed (gen rs1) d1 now.2 file_path true None with
          | (g2, d2, None) => (set_gen rs1 g2, d2, true)
          | (g2, d2, Some _) => record_failed (set_gen rs1 g2) d2 now.2 file_path
          end
      | (d1, Some _) => record_failed rs1 d1 now.2 file_path
      end
  | _ => record_failed rs1 d now.2 file_path
  end.

(** ** A directory: the sequential path of [process_directory] *)

(** [ruby_files = [f for f in all_ruby_files if 'critranks' not in str(f)]] *)
Definition exclude_critranks (all_ruby_files : list Path) : list Path :=
  List.filter (λ f, negb (contains (py "critranks") (path_str f)))
              all_ruby_files.

(** The loop that sets the skipped files aside: the files to process and
    the number of files counted as processed already. *)
Fixpoint select_files (g : generator) (fs : filesystem) (ruby_files : list Path)
    : list Path * nat :=
  match ruby_files with
  | [] => ([], O)
  | file_path :: rest =>
      let '(files_to_process, processed) := select_files g fs rest in
      if is_file_processed g fs file_path
      then (files_to_process, S processed)
      else (file_path :: files_to_process, processed)
  end.

(** The sequential loop over [files_to_process]: a write that fails is
    not caught here and ends the run. *)
Fixpoint process_sequential (lim : limits) (can_write : str → bool)
    (generate : backend) (clock : Path → str * str) (rs : run_state)
    (d : disk) (processed : nat) (files_to_process : list Path)
    : result (run_state * disk * nat) :=
  match files_to_process with
  | [] => Ok (rs, d, processed)
  | file_path :: rest =>
      let now := clock file_path in
      let '(rs1, result) :=
        process_file lim rs (files d) generate now.1 file_path in
      match result with
      | Some (c :: r) =>
          match write_text can_write d (documented_file (gen rs1) file_path)
                           (c :: r) with
          | (d1, None) =>
              match mark_file_processed (gen rs1) d1 now.2 file_path true None with
              | (g2, d2, None) =>
                  process_sequential lim can_write generate clock
                                     (set_gen rs1 g2) d2 (S processed) rest
              | (_, _, Some e) => Raise e
              end
          | (_, Some e) => Raise e
          end
      | _ =>
          match mark_file_processed (gen rs1) d now.2 file_path false None with
          | (g2, d2, None) =>
              process_sequential lim can_write generate clock
                                 (set_gen rs1 g2) d2 processed rest
          | (_, _, Some e) => Raise e
          end
      end
  end.

(** The worker applied to the files one after the other, counting the
    results that are true as [_process_files_parallel] does: the schedule
    in which the tasks of the pool run in the order they were submitted. *)
Fixpoint process_with_worker (lim : limits) (can_write : str → bool)
    (generate : backend) (clock : Path → str * str) (rs : run_state)
    (d : disk) (processed : nat) (files_to_process : list Path)
    : run_state * disk * nat :=
  match files_to_process with
  | [] => (rs, d, processed)
  | file_path :: rest =>
      let '(rs1, d1, ok) :=
        _process_single_file lim can_write generate (clock file_path) rs d
                             file_path in
      process_with_worker lim can_write generate clock rs1 d1
                          (if ok then S processed else processed) rest
  end.

(** The dict [process_directory] returns: with no file found it has the
    two keys [processed] and [failed] only; otherwise also [total],
    [provider] and [failed_files] (and the elapsed time, left out). *)
Inductive stats : Type :=
| NoFiles (processed failed : nat)
| RunStats (processed failed total : nat) (provider : str)
    (failed_files : list str).

(** [process_directory] from the list of files found to the statistics,
    for a run that takes the sequential path (one worker, or one file to
    process).  The quota question put to a gemini provider comes before
    the loop and the metadata file is written after it: neither is part
    of this function. *)
Definition process_directory_sequential (lim : limits)
    (can_write : str → bool) (generate : backend)
    (clock : Path → str * str) (rs : run_state)
    (d : disk) (all_ruby_files : list Path)
    : result (run_state * disk * stats) :=
  let ruby_files := exclude_critranks all_ruby_files in
  match ruby_files with
  | [] => Ok (rs, d, NoFiles 0 0)
  | _ =>
      let '(files_to_process, skipped) :=
        select_files (gen rs) (files d) ruby_files in
      '(rs', d', processed) ←
        process_sequential lim can_write generate clock rs d skipped
                           files_to_process;
      Ok (rs', d',
          RunStats processed (length (self_failed_files rs'))
                   (length ruby_files) (provider_name (gen rs'))
                   (self_failed_files rs'))
  end.

(** ** Provider selection: [validate_environment] and the defaults *)

Abbreviation environ := (gmap str str).

(** [not os.environ.get(key)]: the variable is missing or empty. *)
Definition env_unset (env : environ) (key : str) : bool :=
  match env !! key with
  | Some (_ :: _) => false
  | _ => true
  end.

(** The dict [validate_environment] returns. *)
Record validation : Type := Validation {
  validated_provider : str;
  valid : bool;
  missing : list str;
  warnings : list str
}.

Section Factory.

(** [str.lower], of the standard library. *)
Variable lower : str → str.

(** [os.environ.get('LLM_PROVIDER', 'gemini').lower()] when no name is
    given. *)
Definition factory_provider_name (env : environ) (provider_name : option str)
    : str :=
  match provider_name with
  | Some name => name
  | None => lower (default (py "gemini") (env !! py "LLM_PROVIDER"))
  end.

Definition validate_environment (env : environ) (provider_name : option str)
    : validation :=
  let name := factory_provider_name env provider_name in
  if bool_decide (name = py "gemini") then
    if env_unset env (py "GEMINI_API_KEY")
    then Validation name false [py "GEMINI_API_KEY"] []
    else Validation name true [] []
  else if bool_decide (name = py "openai") then
    if env_unset env (py "OPENAI_API_KEY")
    then Validation name false [py "OPENAI_API_KEY"] []
    else Validation name true []
           [py "OpenAI will incur costs (~$0.50-2.00 per run)"]
  else if bool_decide (name = py "mock") then
    Validation name true []
      [py "Mock mode - no actual documentation will be generated"]
  else Validation name false [] [py "Unknown provider: " ++ name].

(** The provider classes [create_provider] chooses between. *)
Inductive provider_class : Set :=
| GeminiProvider
| OpenAIProvider
| MockProvider.

(** The name dispatch of [create_provider]: the class to build, or
    [ValueError] for a name that is not recognized. *)
Definition provider_class_of (env : environ) (provider_name : option str)
    : result provider_class :=
  let name := factory_provider_name env provider_name in
  if bool_decide (name = py "gemini") then Ok GeminiProvider
  else if bool_decide (name = py "openai") then Ok OpenAIProvider
  else if bool_decide (name = py "mock") then Ok MockProvider
  else Raise ValueError.

End Factory.

(** The number of workers [__init__] settles on. *)
Definition init_parallel_workers (provider_name : str)
    (parallel_workers : option nat) : nat :=
  match parallel_workers with
  | Some n => n
  | None =>
      if bool_decide (provider_name = py "openai") then 8%nat
      else if bool_decide (provider_name = py "anthropic") then 4%nat
      else 1%nat
  end.

(** ** Literals used by the examples *)

(** An entry [{"anchor": ..., "indent": ..., "comment": ...}]. *)
Definition mk_entry (anchor : str) (indent : Z) (comment : str) : pyval :=
  VDict [(py "anchor", VStr anchor); (py "indent", VInt indent);
         (py "comment", VStr comment)].

(** A JSON text of the examples, written with the apostrophe in place of
    the double quote. *)
Definition jq (s : string) : str :=
  map (λ c, if c =? 39 then 34 else c) (py s).

(** The limits of the examples: a thousand nested calls and the default
    of 4300 digits. *)
Definition default_limits : limits := Limits 1000 4300.

(** The three backquotes of a code fence. *)
Definition fence : str := [96; 96; 96].

(** * Vocabulary of the properties *)

(** A line of text holds no newline. *)
Definition no_newline (l : str) : Prop := newline ∉ l.

(** Did the iteration insert a block? *)
Definition matched (o : outcome) : bool :=
  match o with
  | Inserted _ _ => true
  | _ => false
  end.

(** The block an iteration inserted (none when the entry was skipped). *)
Definition inserted_block (o : outcome) : list str :=
  match o with
  | Inserted _ comment_lines => comment_lines
  | _ => []
  end.

(** The entries of a call that were matched, in order. *)
Fixpoint matched_entries_from (st : splice_state) (comments : list pyval)
    : list pyval :=
  match comments with
  | [] => []
  | entry :: rest =>
      let '(st1, o) := process_entry st entry in
      if matched o then entry :: matched_entries_from st1 rest
      else matched_entries_from st1 rest
  end.

Definition matched_entries (original_content : str) (comments : list pyval)
    : list pyval :=
  matched_entries_from (initial_state original_content) comments.

(** The number of lines of a text. *)
Definition line_count (t : str) : nat := length (split_nl t).

(** The lines a call inserted, summed over its log. *)
Definition inserted_line_count (log : list outcome) : nat :=
  sum_list (map (λ o, length (inserted_block o)) log).

(** A blank line: nothing but white space. *)
Definition blank (l : str) : bool := forallb isspace l.

(** The layout of one annotation line: a blank line becomes the empty
    string, any other line gets [n] spaces in front. *)
Definition layout_line (n : nat) (l : str) : str :=
  if blank l then [] else replicate n space ++ l.

(** The layout of a block of [comment]: every line of the text, one by
    one. *)
Definition laid_out (n : nat) (comment : str) : list str :=
  map (layout_line n) (split_nl comment).

(** An entry the loop cannot use in state [st]: it raises, its anchor or
    its comment is empty once trimmed, or its anchor is on no line whose
    index is outside [inserted_at_lines]. *)
Definition bad_entry (st : splice_state) (entry : pyval) : bool :=
  match entry_fields entry with
  | Raise _ => true
  | Ok (anchor, indent, comment_text) =>
      bool_decide (anchor = []) || bool_decide (comment_text = [])
      || bool_decide (find_anchor anchor (lines st) (inserted_at_lines st) = None)
      || match comment_block indent comment_text with
         | Raise _ => true
         | Ok _ => false
         end
  end.

(** *** The splice, in words *)

(** Line [i] of [ls] can take a block for [anchor]: it contains the
    anchor and its index is not in [used]. *)
Definition anchor_at (anchor : str) (ls : list str) (used : gset nat)
    (i : nat) : Prop :=
  ∃ line, ls !! i = Some line ∧ contains anchor line = true ∧ i ∉ used.

(** An entry the splicer can use: it has a trimmed anchor and a trimmed
    comment, neither empty, and an indent that stands for [n] spaces. *)
Definition usable_entry (e : pyval) (anchor : str) (n : nat) (comment : str)
    : Prop :=
  ∃ indent, entry_fields e = Ok (anchor, indent, comment)
            ∧ anchor ≠ [] ∧ comment ≠ []
            ∧ space_times indent = Ok (spaces n).

(** One entry: its block, laid out, goes immediately before the first
    line that contains its anchor at an index not used so far, and that
    index is then used; an entry that cannot be used, or has no such
    line, changes nothing.  The last index is the block that went in. *)
Inductive splice_step (st : splice_state) (e : pyval)
    : splice_state → list str → Prop :=
| step_insert anchor n comment idx :
    usable_entry e anchor n comment →
    anchor_at anchor (lines st) (inserted_at_lines st) idx →
    (∀ j, (j < idx)%nat →
          ¬ anchor_at anchor (lines st) (inserted_at_lines st) j) →
    splice_step st e
      (SpliceState
         (take idx (lines st) ++ laid_out n comment ++ drop idx (lines st))
         ({[idx]} ∪ inserted_at_lines st))
      (laid_out n comment)
| step_skip :
    (∀ anchor n comment i,
       usable_entry e anchor n comment →
       ¬ anchor_at anchor (lines st) (inserted_at_lines st) i) →
    splice_step st e st [].

(** The entries of a call, one after the other, with their blocks. *)
Inductive splice_run : splice_state → list pyval → splice_state
                       → list (list str) → Prop :=
| run_nil st : splice_run st [] st []
| run_cons st e st1 block es st2 blocks :
    splice_step st e st1 block →
    splice_run st1 es st2 blocks →
    splice_run st (e :: es) st2 (block :: blocks).

(** *** The stripping rule, in words *)

(** The recognized documentation tags. *)
Definition doc_tags : list str :=
  [py "@param"; py "@return"; py "@example"; py "@note"; py "@see";
   py "@yield"].

(** A comment line: the first character that is not white space is the
    comment marker. *)
Definition is_comment (l : str) : bool :=
  match lstrip l with
  | c :: _ => c =? 35
  | [] => false
  end.

(** The line holds one of the tags, anywhere. *)
Definition has_doc_tag (l : str) : bool :=
  existsb (λ tag, contains tag l) doc_tags.

(** The trimmed form of the line begins with the marker and a space. *)
Definition is_spaced_comment (l : str) : bool := startswith (py "# ") (strip l).

(** The trimmed form of the line begins as a shebang does. *)
Definition is_shebang (l : str) : bool := startswith (py "#!") (strip l).

(** The line holds the text [coding:], as every line does that holds
    [encoding:]. *)
Definition mentions_coding (l : str) : bool := contains (py "coding:") l.

(** A line the fingerprint leaves out: a comment line with a
    documentation tag, or a comment line that begins with the marker and a
    space, is no shebang and does not hold the text [coding:]. *)
Definition removed_by_rule (l : str) : bool :=
  (is_comment l && has_doc_tag l)
  || (is_spaced_comment l && negb (is_shebang l || mentions_coding l)).

(** An encoding declaration as Ruby reads one in a comment: the word
    [coding] (so [encoding] too), then, blanks apart, a colon or an
    equals sign and the name of the encoding. *)
Fixpoint skip_blanks (s : str) : str :=
  match s with
  | c :: r => if (c =? 32) || (c =? 9) then skip_blanks r else s
  | [] => []
  end.

Definition encoding_name_char (c : N) : bool :=
  ((48 <=? c) && (c <=? 57)) || ((65 <=? c) && (c <=? 90))
  || ((97 <=? c) && (c <=? 122)) || (c =? 45) || (c =? 95).

Definition declares_encoding_here (s : str) : bool :=
  startswith (py "coding") s
  && match skip_blanks (drop 6 s) with
     | sep :: r =>
         ((sep =? 58) || (sep =? 61))
         && match skip_blanks r with
            | c :: _ => encoding_name_char c
            | [] => false
            end
     | [] => false
     end.

Fixpoint declares_encoding (s : str) : bool :=
  declares_encoding_here s
  || match s with
     | [] => false
     | _ :: r => declares_encoding r
     end.

Definition is_encoding_declaration (l : str) : bool :=
  is_comment l && declares_encoding l.

(** Every line an iteration inserted is one the fingerprint removes. *)
Definition adds_only_removed (o : outcome) : Prop :=
  Forall (λ l, removed_by_rule l = true) (inserted_block o).

(** A blank line or a line the fingerprint removes: what the
    specification lets an annotation block consist of. *)
Definition annotation_line (l : str) : bool := removed_by_rule l || blank l.

(** The opening brackets and braces of a text. *)
Definition opens (s : str) : nat :=
  length (List.filter (λ c, (c =? 91) || (c =? 123)) s).

(** What a scan of [s] with [depth] nested calls left and the digit
    limit [max_digits] can come to: on success what is left is shorter
    than [s] and has no more opening brackets; a RecursionError needs more
    opening brackets than [depth], a ValueError a text longer than the
    limit in force; the fuel is never used up. *)
Definition consumes (max_digits depth : nat) (s : str) (p : Json.pres pyval)
    : Prop :=
  match p with
  | Json.POk _ r => (length r < length s)%nat ∧ (opens r ≤ opens s)%nat
  | Json.PErr => True
  | Json.PRaise e =>
      (e = RecursionError ∧ (depth < opens s)%nat)
      ∨ (e = ValueError
         ∧ (0 < max_digits)%nat ∧ (max_digits < length s)%nat
         ∧ (640 < length s)%nat)
  | Json.PFuel => False
  end.

(** [pat] occurs in [s] after [pre] and before [post], and nowhere
    earlier. *)
Definition first_occurrence (pat s pre post : str) : Prop :=
  s = pre ++ pat ++ post
  ∧ ∀ k, (k < length pre)%nat → startswith pat (drop k s) = false.

(** The content of the first fenced block of a response: what stands
    between the white space after the first opening fence and the next
    three backquotes. *)
Definition fenced_block (response block : str) : Prop :=
  ∃ rest pre post,
    first_occurrence Regex.fence_open response pre rest
    ∧ first_occurrence Regex.fence_close (lstrip rest) block post.

(** ** Vocabulary of the further properties *)


(** Checking by evaluation that lines hold no newline. *)
Definition has_no_newline (l : str) : bool := forallb (λ c, negb (c =? newline)) l.


(** The lines of the blocks of a log that go to the comment sidecar. *)
Definition inserted_yard_count (log : list outcome) : nat :=
  sum_list (map (λ o, length (yard_comments_of (inserted_block o))) log).

(** A path has a record in the manifest: as processed or as failed. *)
Definition recorded (m : manifest_dict) (p : str) : Prop :=
  is_Some (default ∅ (processed_files m) !! p)
  ∨ p ∈ default [] (failed_files m).

(** A backend of the examples: it documents [def foo(x)], raises on a
    file named [bad.rb] and answers prose otherwise. *)
Definition mock_backend : backend :=
  λ name content,
    if bool_decide (name = py "bad.rb") then Raise OSError
    else if contains (py "def foo(x)") content then
      Ok (jq "[{'anchor': 'def foo(x)', 'indent': 0, 'comment': '# @param x'}]")
    else Ok (py "Nothing to document.").

(** * Properties *)

(** ** Sequencing *)

Lemma bind_Ok {A B} (a : A) (k : A → result B) : Ok a ≫= k = k a.
Proof. reflexivity. Qed.

Lemma bind_Raise {A B} (e : exn) (k : A → result B) : Raise e ≫= k = Raise e.
Proof. reflexivity. Qed.

(** ** Checking a list by evaluation *)

Lemma Forall_of_forallb {A} (f : A → bool) (l : list A) :
  forallb f l = true → Forall (λ x, f x = true) l.
Proof.
  induction l as [|x l IH]; cbn [forallb]; [by constructor|].
  intros [Hx Hl]%andb_prop. constructor; auto.
Qed.

Lemma Forall_Forall_of_forallb {A B} (f : B → bool) (g : A → list B)
    (l : list A) :
  forallb (λ x, forallb f (g x)) l = true →
  Forall (λ x, Forall (λ y, f y = true) (g x)) l.
Proof.
  intros H. apply Forall_of_forallb in H.
  eapply Forall_impl; [exact H|]. intros x Hx. by apply Forall_of_forallb.
Qed.

(** ** Lines and text *)

Section Lines.

Implicit Types (s : str) (ls : list str).

Lemma split_nl_cons s : ∃ h t, split_nl s = h :: t.
Proof.
  induction s as [|c r IH]; simpl; [by eexists _, _|].
  destruct (c =? newline); [by eexists _, _|].
  destruct IH as (h & t & ->). by eexists _, _.
Qed.

Lemma split_nl_not_nil s : split_nl s ≠ [].
Proof. destruct (split_nl_cons s) as (h & t & ->). done. Qed.

Lemma join_nl_cons l ls : ls ≠ [] → join_nl (l :: ls) = l ++ newline :: join_nl ls.
Proof. by destruct ls. Qed.

Lemma join_split s : join_nl (split_nl s) = s.
Proof.
  induction s as [|c r IH]; [done|]. cbn [split_nl].
  destruct (N.eqb_spec c newline) as [->|Hc].
  - rewrite join_nl_cons by apply split_nl_not_nil. by rewrite IH.
  - destruct (split_nl_cons r) as (h & t & Hr). rewrite Hr in IH |- *.
    destruct t as [|l t]; simpl in *; by rewrite <- IH.
Qed.

Lemma split_no_newline s : Forall no_newline (split_nl s).
Proof.
  induction s as [|c r IH]; cbn [split_nl].
  - repeat constructor. by intros ?%elem_of_nil.
  - destruct (N.eqb_spec c newline) as [->|Hc].
    + constructor; [by intros ?%elem_of_nil | done].
    + destruct (split_nl_cons r) as (h & t & Hr). rewrite Hr in IH |- *.
      apply Forall_cons in IH as [Hh Ht]. constructor; [|done].
      unfold no_newline in *. rewrite elem_of_cons. intros [Heq|?]; [by symmetry in Heq|done].
Qed.

Lemma split_nl_app_newline l s :
  no_newline l → split_nl (l ++ newline :: s) = l :: split_nl s.
Proof.
  induction l as [|c l IH]; intros Hl; cbn [split_nl app].
  - done.
  - unfold no_newline in Hl. rewrite not_elem_of_cons in Hl.
    destruct Hl as [Hc Hl].
    destruct (N.eqb_spec c newline) as [->|_]; [done|].
    by rewrite IH.
Qed.

Lemma split_nl_single l : no_newline l → split_nl l = [l].
Proof.
  induction l as [|c l IH]; intros Hl; cbn [split_nl]; [done|].
  unfold no_newline in Hl. rewrite not_elem_of_cons in Hl.
  destruct Hl as [Hc Hl].
  destruct (N.eqb_spec c newline) as [->|_]; [done|]. by rewrite IH.
Qed.

Lemma split_join ls : ls ≠ [] → Forall no_newline ls → split_nl (join_nl ls) = ls.
Proof.
  induction ls as [|l ls IH]; [done|]. intros _ Hall.
  inversion Hall as [|?? Hl Hls]; subst.
  destruct ls as [|l' ls].
  - by apply split_nl_single.
  - rewrite join_nl_cons by done. rewrite split_nl_app_newline by done.
    f_equal. by apply IH.
Qed.

Lemma spaces_no_newline n l : no_newline l → no_newline (spaces n ++ l).
Proof.
  unfold no_newline, spaces. intros Hl [Hin|Hin]%elem_of_app; [|done].
  by apply elem_of_replicate in Hin as [? _].
Qed.

End Lines.

(** ** One iteration of the splice loop *)

Section Splice.

Implicit Types (st : splice_state) (ls block : list str) (e : pyval).

Lemma list_insert_at_length i x ls :
  length (list_insert_at i x ls) = S (length ls).
Proof.
  unfold list_insert_at. rewrite length_app. cbn [length].
  rewrite length_take, length_drop. lia.
Qed.

(** The [lines.insert] loop puts the block, in order, before the line
    at [anchor_line_idx]. *)
Lemma insert_block_from_spec block : ∀ offset idx ls,
  (idx + offset ≤ length ls)%nat →
  insert_block_from offset idx block ls
  = take (idx + offset) ls ++ block ++ drop (idx + offset) ls.
Proof.
  induction block as [|c block IH]; intros offset idx ls Hle; cbn [insert_block_from].
  - by rewrite app_nil_l, take_drop.
  - rewrite IH by (rewrite list_insert_at_length; lia).
    unfold list_insert_at.
    replace (idx + S offset)%nat with (S (idx + offset)) by lia.
    rewrite take_app_ge by (rewrite length_take; lia).
    rewrite drop_app_ge by (rewrite length_take; lia).
    rewrite length_take.
    replace (S (idx + offset) - (idx + offset) `min` length ls)%nat with 1%nat by lia.
    cbn [take drop]. rewrite take_0, drop_0. by rewrite <- app_assoc.
Qed.

Lemma insert_block_spec block idx ls :
  (idx ≤ length ls)%nat →
  insert_block_from 0 idx block ls = take idx ls ++ block ++ drop idx ls.
Proof.
  intros. rewrite insert_block_from_spec by lia. by rewrite Nat.add_0_r.
Qed.

Lemma find_anchor_from_Some anchor used ls : ∀ i k,
  find_anchor_from i anchor ls used = Some k →
  (i ≤ k < i + length ls)%nat
  ∧ (k ∉ used)
  ∧ (∃ line, ls !! (k - i)%nat = Some line ∧ contains anchor line = true).
Proof.
  induction ls as [|line ls IH]; intros i k Hf; cbn [find_anchor_from] in Hf; [done|].
  destruct (contains anchor line && negb (bool_decide (i ∈ used))) eqn:Hc.
  - injection Hf as <-. apply andb_prop in Hc as [Hc Hu].
    apply negb_true_iff, bool_decide_eq_false in Hu.
    split; [cbn [length]; lia|]. split; [done|].
    exists line. by rewrite Nat.sub_diag.
  - apply IH in Hf as (Hk & Hu & line' & Hl & Hc').
    split; [cbn [length]; lia|]. split; [done|].
    exists line'. split; [|done].
    replace (k - i)%nat with (S (k - S i)) by lia. done.
Qed.

Lemma build_comment_lines_length indent_str pieces :
  length (build_comment_lines indent_str pieces) = length pieces.
Proof. induction pieces; simpl; congruence. Qed.

Lemma build_comment_lines_no_newline indent_str pieces :
  no_newline indent_str → Forall no_newline pieces →
  Forall no_newline (build_comment_lines indent_str pieces).
Proof.
  intros Hi. induction 1 as [|p pieces Hp _ IH]; cbn [build_comment_lines];
    constructor; [|done].
  destruct (truthy (strip p)); [|by intros ?%elem_of_nil].
  unfold no_newline in *. rewrite elem_of_app. tauto.
Qed.

Lemma space_times_no_newline v indent_str :
  space_times v = Ok indent_str → no_newline indent_str.
Proof.
  intros H. assert (∃ n, indent_str = spaces n) as [n ->].
  { destruct v; simplify_eq/=; eauto.
    destruct (fits_index z); simplify_eq; eauto. }
  rewrite <- (app_nil_r (spaces n)). apply spaces_no_newline.
  by intros ?%elem_of_nil.
Qed.

Lemma comment_block_Ok indent comment_text block :
  comment_block indent comment_text = Ok block →
  block ≠ [] ∧ Forall no_newline block.
Proof.
  unfold comment_block. destruct (space_times indent) as [indent_str|] eqn:Hi;
    [|done].
  rewrite bind_Ok. intros [= <-]. split.
  - destruct (split_nl_cons comment_text) as (h & t & ->). done.
  - apply build_comment_lines_no_newline;
      [by eapply space_times_no_newline | apply split_no_newline].
Qed.

(** The three ways an iteration ends without an insertion, and the
    fourth with one. *)
Lemma process_entry_unfold st e :
  process_entry st e =
  match entry_fields e with
  | Raise x => (st, EntryError x)
  | Ok (anchor, indent, comment_text) =>
      if negb (truthy anchor) || negb (truthy comment_text)
      then (st, SkippedInvalid)
      else
        match find_anchor anchor (lines st) (inserted_at_lines st) with
        | None => (st, AnchorNotFound anchor)
        | Some idx =>
            match comment_block indent comment_text with
            | Raise x => (st, EntryError x)
            | Ok block =>
                (SpliceState (insert_block_from 0 idx block (lines st))
                             ({[idx]} ∪ inserted_at_lines st),
                 Inserted idx block)
            end
        end
  end.
Proof.
  unfold process_entry, try_entry.
  destruct (entry_fields e) as [[[anchor indent] comment_text]|x]; [|done].
  rewrite bind_Ok.
  destruct (negb (truthy anchor) || negb (truthy comment_text)); [done|].
  destruct (find_anchor anchor (lines st) (inserted_at_lines st)); [|done].
  by destruct (comment_block indent comment_text).
Qed.

(** What one iteration does to the state: nothing, unless it logs an
    insertion, and then the block stands before the matched line. *)
Lemma process_entry_cases st e st' o :
  process_entry st e = (st', o) →
  (matched o = false ∧ st' = st)
  ∨ (∃ idx block,
       o = Inserted idx block
       ∧ (idx < length (lines st))%nat
       ∧ (idx ∉ inserted_at_lines st)
       ∧ block ≠ []
       ∧ Forall no_newline block
       ∧ lines st' = take idx (lines st) ++ block ++ drop idx (lines st)
       ∧ inserted_at_lines st' = {[idx]} ∪ inserted_at_lines st).
Proof.
  rewrite process_entry_unfold. intros H.
  destruct (entry_fields e) as [[[anchor indent] comment_text]|x];
    [|left; by simplify_eq].
  destruct (negb (truthy anchor) || negb (truthy comment_text));
    [left; by simplify_eq|].
  destruct (find_anchor anchor (lines st) (inserted_at_lines st)) as [idx|] eqn:Hf;
    [|left; by simplify_eq].
  destruct (comment_block indent comment_text) as [block|x] eqn:Hb;
    [|left; by simplify_eq].
  injection H as <- <-. right.
  apply find_anchor_from_Some in Hf as (Hk & Hu & _).
  apply comment_block_Ok in Hb as [Hne Hnl].
  eexists _, _. split; [done|]. split; [lia|]. do 3 (split; [done|]).
  split; [|done]. cbn [lines]. apply insert_block_spec. lia.
Qed.

Lemma process_entry_skip st e :
  matched (process_entry st e).2 = false → (process_entry st e).1 = st.
Proof.
  destruct (process_entry st e) as [st' o] eqn:H. cbn. intros Hm.
  apply process_entry_cases in H as [[_ ->]|(idx & block & -> & _)]; done.
Qed.

Lemma process_entry_length st e :
  length (lines (process_entry st e).1)
  = (length (lines st) + length (inserted_block (process_entry st e).2))%nat.
Proof.
  destruct (process_entry st e) as [st' o] eqn:H. cbn.
  apply process_entry_cases in H
    as [[Hm ->]|(idx & block & -> & Hlt & _ & _ & _ & -> & _)].
  - destruct o; (done || (cbn; lia)).
  - cbn. rewrite !length_app, length_take, length_drop. lia.
Qed.

Lemma process_entry_sublist st e :
  lines st `sublist_of` lines (process_entry st e).1.
Proof.
  destruct (process_entry st e) as [st' o] eqn:H. cbn.
  apply process_entry_cases in H
    as [[Hm ->]|(idx & block & -> & Hlt & _ & _ & _ & -> & _)]; [done|].
  rewrite <- (take_drop idx (lines st)) at 1.
  apply sublist_app; [done|]. by apply sublist_inserts_l.
Qed.

Lemma process_entry_no_newline st e :
  Forall no_newline (lines st) →
  Forall no_newline (lines (process_entry st e).1).
Proof.
  intros Hall. destruct (process_entry st e) as [st' o] eqn:H. cbn.
  apply process_entry_cases in H
    as [[Hm ->]|(idx & block & -> & Hlt & _ & _ & Hb & -> & _)]; [done|].
  rewrite !Forall_app. split_and!;
    [by apply Forall_take | done | by apply Forall_drop].
Qed.

Lemma process_entry_not_nil st e :
  lines st ≠ [] → lines (process_entry st e).1 ≠ [].
Proof.
  intros Hne Hnil. pose proof (process_entry_length st e) as Hlen.
  rewrite Hnil in Hlen. destruct (lines st); [done|]. cbn in Hlen. lia.
Qed.

End Splice.

(** ** The whole loop *)

Section Loop.

Implicit Types (st : splice_state) (es : list pyval).

Lemma process_entries_cons st e es :
  process_entries st (e :: es) =
  ((process_entries (process_entry st e).1 es).1,
   (process_entry st e).2 :: (process_entries (process_entry st e).1 es).2).
Proof.
  cbn [process_entries]. destruct (process_entry st e) as [st1 o].
  cbn [fst snd]. by destruct (process_entries st1 es).
Qed.

Lemma process_entries_log_length es : ∀ st,
  length (process_entries st es).2 = length es.
Proof.
  induction es as [|e es IH]; intros st; [done|].
  rewrite process_entries_cons. cbn. by rewrite IH.
Qed.

Lemma process_entries_sublist es : ∀ st,
  lines st `sublist_of` lines (process_entries st es).1.
Proof.
  induction es as [|e es IH]; intros st; [done|].
  rewrite process_entries_cons. cbn [fst].
  etrans; [apply (process_entry_sublist st e) | apply IH].
Qed.

Lemma process_entries_length es : ∀ st,
  length (lines (process_entries st es).1)
  = (length (lines st) + inserted_line_count (process_entries st es).2)%nat.
Proof.
  induction es as [|e es IH]; intros st.
  - cbn. unfold inserted_line_count. cbn. lia.
  - rewrite process_entries_cons. cbn [fst snd].
    rewrite IH, process_entry_length. unfold inserted_line_count. cbn. lia.
Qed.

Lemma process_entries_well_formed es : ∀ st,
  lines st ≠ [] → Forall no_newline (lines st) →
  lines (process_entries st es).1 ≠ []
  ∧ Forall no_newline (lines (process_entries st es).1).
Proof.
  induction es as [|e es IH]; intros st Hne Hnl; [done|].
  rewrite process_entries_cons. cbn [fst].
  apply IH; [by apply process_entry_not_nil | by apply process_entry_no_newline].
Qed.

(** Splitting the result of a call gives back the final [lines]. *)
Lemma split_insert_comments T es :
  split_nl (insert_comments T es)
  = lines (process_entries (initial_state T) es).1.
Proof.
  destruct es as [|e es]; [done|]. unfold insert_comments.
  destruct (process_entries_well_formed (e :: es) (initial_state T))
    as [Hne Hnl]; [apply split_nl_not_nil | apply split_no_newline |].
  by apply split_join.
Qed.

(** Running the loop on the matched entries alone goes through the same
    insertions. *)
Lemma process_matched_entries es : ∀ st,
  process_entries st (matched_entries_from st es)
  = ((process_entries st es).1,
     filter (λ o, matched o) (process_entries st es).2).
Proof.
  induction es as [|e es IH]; intros st; [done|].
  rewrite (process_entries_cons st e es). cbn [matched_entries_from fst snd].
  pose proof (process_entry_skip st e) as Hskip.
  destruct (process_entry st e) as [st1 o] eqn:He. cbn [fst snd] in *.
  destruct (matched o) eqn:Hm.
  - rewrite process_entries_cons, He. cbn [fst snd]. rewrite IH. cbn [fst snd].
    rewrite filter_cons_True by (by rewrite Hm). done.
  - rewrite Hskip by done. rewrite IH.
    rewrite filter_cons_False by (rewrite Hm; exact id). done.
Qed.

End Loop.

(** ** Trimming *)

Section Strip.

Lemma lstrip_nil_iff (l : str) : lstrip l = [] ↔ blank l = true.
Proof.
  induction l as [|c l IH]; [done|]. cbn [lstrip blank forallb].
  destruct (isspace c); [exact IH|]. split; done.
Qed.

Lemma lstrip_head (l : str) c r : lstrip l = c :: r → isspace c = false.
Proof.
  induction l as [|a l IH]; [done|]. cbn [lstrip].
  destruct (isspace a) eqn:Ha; [exact IH|]. by intros [= <- _].
Qed.

Lemma blank_rev (l : str) : blank (rev l) = blank l.
Proof.
  unfold blank. apply eq_true_iff_eq. rewrite !forallb_forall.
  split; intros H x Hx; apply H; by apply in_rev in Hx || apply in_rev.
Qed.

Lemma strip_nil_iff (l : str) : strip l = [] ↔ blank l = true.
Proof.
  unfold strip, rstrip. split.
  - intros H. apply (f_equal (@rev N)) in H. rewrite rev_involutive in H.
    cbn in H. apply lstrip_nil_iff in H. rewrite blank_rev in H.
    destruct (lstrip l) as [|c r] eqn:Hl; [by apply lstrip_nil_iff|].
    apply lstrip_head in Hl. cbn in H. by rewrite Hl in H.
  - intros H. apply lstrip_nil_iff in H. by rewrite H.
Qed.

Lemma truthy_strip (l : str) : truthy (strip l) = negb (blank l).
Proof.
  destruct (blank l) eqn:Hb.
  - apply strip_nil_iff in Hb. by rewrite Hb.
  - destruct (strip l) eqn:Hs; [|done].
    apply strip_nil_iff in Hs. congruence.
Qed.

End Strip.

Lemma build_comment_lines_layout n pieces :
  build_comment_lines (spaces n) pieces = map (layout_line n) pieces.
Proof.
  induction pieces as [|p pieces IH]; [done|]. cbn [build_comment_lines map].
  rewrite IH. unfold layout_line. rewrite truthy_strip. by destruct (blank p).
Qed.

(** ** The search for the anchor line *)

Section FindAnchor.

Implicit Types (anchor : str) (ls : list str) (used : gset nat).

Lemma find_anchor_from_None anchor used ls : ∀ i,
  find_anchor_from i anchor ls used = None →
  ∀ j line, ls !! j = Some line →
    ¬ (contains anchor line = true ∧ (i + j)%nat ∉ used).
Proof.
  induction ls as [|l ls IH]; intros i Hf j line Hj; [done|].
  cbn [find_anchor_from] in Hf.
  destruct (contains anchor l && negb (bool_decide (i ∈ used))) eqn:Hc; [done|].
  destruct j as [|j]; cbn in Hj.
  - injection Hj as <-. rewrite Nat.add_0_r. intros [H1 H2].
    rewrite H1, bool_decide_eq_false_2 in Hc by done. done.
  - replace (i + S j)%nat with (S i + j)%nat by lia. by eapply IH.
Qed.

Lemma find_anchor_from_least anchor used ls : ∀ i k,
  find_anchor_from i anchor ls used = Some k →
  ∀ j line, (i ≤ j < k)%nat → ls !! (j - i)%nat = Some line →
    ¬ (contains anchor line = true ∧ j ∉ used).
Proof.
  induction ls as [|l ls IH]; intros i k Hf j line Hj Hl; [done|].
  cbn [find_anchor_from] in Hf.
  destruct (contains anchor l && negb (bool_decide (i ∈ used))) eqn:Hc.
  - injection Hf as <-. lia.
  - destruct (decide (j = i)) as [->|Hne].
    + rewrite Nat.sub_diag in Hl. injection Hl as <-. intros [H1 H2].
      rewrite H1, bool_decide_eq_false_2 in Hc by done. done.
    + apply (IH _ _ Hf j line); [lia|].
      replace (j - i)%nat with (S (j - S i)) in Hl by lia. done.
Qed.

Lemma find_anchor_Some_first anchor ls used idx :
  find_anchor anchor ls used = Some idx →
  anchor_at anchor ls used idx
  ∧ ∀ j, (j < idx)%nat → ¬ anchor_at anchor ls used j.
Proof.
  unfold find_anchor. intros Hf. split.
  - apply find_anchor_from_Some in Hf as (_ & Hu & line & Hl & Hc).
    rewrite Nat.sub_0_r in Hl. by exists line.
  - intros j Hj (line & Hl & Hc & Hu).
    eapply (find_anchor_from_least _ _ _ _ _ Hf j line); [lia| |done].
    by rewrite Nat.sub_0_r.
Qed.

Lemma find_anchor_intro anchor ls used idx :
  anchor_at anchor ls used idx →
  (∀ j, (j < idx)%nat → ¬ anchor_at anchor ls used j) →
  find_anchor anchor ls used = Some idx.
Proof.
  intros Hat Hleast.
  destruct (find_anchor anchor ls used) as [k|] eqn:Hf.
  - apply find_anchor_Some_first in Hf as [Hk Hkleast].
    destruct (Nat.lt_trichotomy k idx) as [Hlt|[->|Hgt]]; [|done|].
    + by destruct (Hleast k Hlt).
    + by destruct (Hkleast idx Hgt).
  - unfold find_anchor in Hf. destruct Hat as (line & Hl & Hc & Hu).
    by destruct (find_anchor_from_None _ _ _ _ Hf idx line).
Qed.

Lemma find_anchor_None_all anchor ls used :
  find_anchor anchor ls used = None → ∀ j, ¬ anchor_at anchor ls used j.
Proof.
  unfold find_anchor. intros Hf j (line & Hl & Hc & Hu).
  by eapply (find_anchor_from_None _ _ _ _ Hf j line).
Qed.

End FindAnchor.

(** ** Where the block goes *)

Section Placement.

Implicit Types (st : splice_state) (e : pyval).

Lemma process_entry_Inserted_inv st e st' idx block :
  process_entry st e = (st', Inserted idx block) →
  ∃ anchor indent comment_text,
    entry_fields e = Ok (anchor, indent, comment_text)
    ∧ anchor ≠ [] ∧ comment_text ≠ []
    ∧ find_anchor anchor (lines st) (inserted_at_lines st) = Some idx
    ∧ comment_block indent comment_text = Ok block
    ∧ st' = SpliceState (insert_block_from 0 idx block (lines st))
                        ({[idx]} ∪ inserted_at_lines st).
Proof.
  rewrite process_entry_unfold.
  destruct (entry_fields e) as [[[anchor indent] comment_text]|x]; [|done].
  destruct anchor as [|a anchor]; [done|].
  destruct comment_text as [|c comment_text]; [done|].
  cbn [truthy negb orb].
  destruct (find_anchor _ _ _) as [k|] eqn:Hf; [|done].
  destruct (comment_block _ _) as [b|x] eqn:Hb; [|done].
  intros [= <- <- <-]. by eexists _, _, _.
Qed.

Lemma process_entry_Inserted_intro st e anchor indent comment_text idx block :
  entry_fields e = Ok (anchor, indent, comment_text) →
  anchor ≠ [] → comment_text ≠ [] →
  find_anchor anchor (lines st) (inserted_at_lines st) = Some idx →
  comment_block indent comment_text = Ok block →
  process_entry st e
  = (SpliceState (take idx (lines st) ++ block ++ drop idx (lines st))
                 ({[idx]} ∪ inserted_at_lines st),
     Inserted idx block).
Proof.
  intros Hf Ha Hc Hfind Hb. rewrite process_entry_unfold, Hf.
  destruct anchor; [done|]. destruct comment_text; [done|].
  cbn [truthy negb orb]. rewrite Hfind, Hb.
  apply find_anchor_from_Some in Hfind as (Hk & _).
  rewrite insert_block_spec by lia. done.
Qed.

End Placement.

(** ** Insertion only *)

Section Run.

Implicit Types (st : splice_state) (es : list pyval).

Lemma space_times_spaces v indent_str :
  space_times v = Ok indent_str → ∃ n, indent_str = spaces n.
Proof.
  intros H. destruct v as [|b|z| | | |]; simplify_eq/=; eauto.
  destruct (fits_index z); simplify_eq; eauto.
Qed.

(** An iteration that inserts nothing had no usable entry, or no line
    for its anchor. *)
Lemma process_entry_unmatched st e anchor n comment i :
  matched (process_entry st e).2 = false →
  usable_entry e anchor n comment →
  ¬ anchor_at anchor (lines st) (inserted_at_lines st) i.
Proof.
  rewrite process_entry_unfold. intros Hm (indent & Hf & Ha & Hc & Hs) Hat.
  rewrite Hf in Hm. destruct anchor; [done|]. destruct comment; [done|].
  cbn [truthy negb orb] in Hm.
  destruct (find_anchor _ _ _) as [k|] eqn:Hfind.
  - unfold comment_block in Hm. by rewrite Hs, bind_Ok in Hm.
  - by destruct (find_anchor_None_all _ _ _ Hfind i).
Qed.

(** One iteration of the loop is one step of the splice in words. *)
Lemma process_entry_step st e :
  splice_step st e (process_entry st e).1
              (inserted_block (process_entry st e).2).
Proof.
  destruct (matched (process_entry st e).2) eqn:Hm.
  - destruct (process_entry st e) as [st' o] eqn:H. cbn [fst snd] in *.
    destruct o as [idx block| | |]; try done. cbn [inserted_block].
    apply process_entry_Inserted_inv in H
      as (anchor & indent & comment & Hf & Ha & Hc & Hfind & Hb & ->).
    unfold comment_block in Hb.
    destruct (space_times indent) as [indent_str|] eqn:Hi;
      [rewrite bind_Ok in Hb | by rewrite bind_Raise in Hb].
    injection Hb as <-.
    destruct (space_times_spaces _ _ Hi) as [n ->].
    rewrite build_comment_lines_layout. fold (laid_out n comment).
    pose proof (find_anchor_from_Some _ _ _ _ _ Hfind) as (Hk & _).
    apply find_anchor_Some_first in Hfind as [Hat Hleast].
    rewrite insert_block_spec by lia.
    apply (step_insert st e anchor n comment idx); [|done|done].
    by exists indent.
  - rewrite (process_entry_skip st e Hm).
    destruct (process_entry st e) as [st' o] eqn:H. cbn [fst snd] in *.
    destruct o; [done|cbn [inserted_block]..];
      apply step_skip; intros a n c i Hu;
      (apply (process_entry_unmatched st e a n c i); [|done]);
      by rewrite H.
Qed.

Lemma process_entries_run es : ∀ st,
  splice_run st es (process_entries st es).1
             (map inserted_block (process_entries st es).2).
Proof.
  induction es as [|e es IH]; intros st; [constructor|].
  rewrite process_entries_cons. cbn [fst snd map].
  econstructor; [apply process_entry_step | apply IH].
Qed.

(** The splice in words has one outcome. *)
Lemma splice_step_functional st e st1 b1 st2 b2 :
  splice_step st e st1 b1 → splice_step st e st2 b2 → st1 = st2 ∧ b1 = b2.
Proof.
  intros [a1 n1 c1 i1 Hu1 Hat1 Hl1|Hno1] [a2 n2 c2 i2 Hu2 Hat2 Hl2|Hno2];
    [|by destruct (Hno2 _ _ _ i1 Hu1)|by destruct (Hno1 _ _ _ i2 Hu2)|done].
  destruct Hu1 as (v1 & Hf1 & _ & _ & Hs1), Hu2 as (v2 & Hf2 & _ & _ & Hs2).
  rewrite Hf1 in Hf2. injection Hf2 as <- <- <-.
  rewrite Hs1 in Hs2. injection Hs2 as Hn.
  assert (n1 = n2) as <-.
  { apply (f_equal length) in Hn. unfold spaces in Hn.
    by rewrite !length_replicate in Hn. }
  assert (i1 = i2) as <-; [|done].
  destruct (Nat.lt_trichotomy i1 i2) as [Hlt|[->|Hgt]]; [|done|].
  - by destruct (Hl2 i1 Hlt).
  - by destruct (Hl1 i2 Hgt).
Qed.

Lemma splice_run_functional es : ∀ st st1 bs1 st2 bs2,
  splice_run st es st1 bs1 → splice_run st es st2 bs2 →
  st1 = st2 ∧ bs1 = bs2.
Proof.
  induction es as [|e es IH]; intros st st1 bs1 st2 bs2 H1 H2;
    inversion H1; inversion H2; subst; [done|].
  match goal with
  | Ha : splice_step st e ?x ?b, Hb : splice_step st e ?y ?c |- _ =>
      destruct (splice_step_functional _ _ _ _ _ _ Ha Hb) as [-> ->]
  end.
  match goal with
  | Ha : splice_run ?x es st1 ?b, Hb : splice_run ?x es st2 ?c |- _ =>
      destruct (IH _ _ _ _ _ Ha Hb) as [-> ->]
  end.
  done.
Qed.

End Run.

(** C2. For every source text and entry list, the lines of the result
    contain the original lines, unmodified and in their order
    (insertions only).  The entries are spliced as the words say: each
    entry that can be used and has a line for its anchor puts its block,
    laid out, before the first such line, and every other entry changes
    nothing; the blocks are fixed by the text and the entries alone, and
    the line count grows by exactly the sum of their lengths. *)
Theorem insert_comments_insertion_only (T : str) (entries : list pyval) :
  split_nl T `sublist_of` split_nl (insert_comments T entries)
  ∧ ∃ st' blocks,
      splice_run (initial_state T) entries st' blocks
      ∧ (∀ st'' blocks', splice_run (initial_state T) entries st'' blocks' →
                          st'' = st' ∧ blocks' = blocks)
      ∧ split_nl (insert_comments T entries) = lines st'
      ∧ line_count (insert_comments T entries)
        = (line_count T + sum_list (map length blocks))%nat.
Proof.
  unfold line_count. rewrite split_insert_comments. split.
  { apply (process_entries_sublist entries (initial_state T)). }
  exists (process_entries (initial_state T) entries).1,
         (map inserted_block (process_entries (initial_state T) entries).2).
  pose proof (process_entries_run entries (initial_state T)) as Hrun.
  split_and!; [done| |done|].
  - intros st'' blocks' H.
    by destruct (splice_run_functional _ _ _ _ _ _ H Hrun) as [-> ->].
  - rewrite (process_entries_length entries (initial_state T)).
    unfold inserted_line_count. by rewrite map_map.
Qed.

(** On a source of two lines, with one entry that is placed and one
    whose anchor is on no line, the result has the two lines of the
    block and the two of the source. *)
Lemma insert_comments_insertion_only_witness :
  let T := join_nl [py "def foo(x)"; py "end"] in
  let entries :=
    [mk_entry (py "def foo(x)") 2 (join_nl [py "# does foo"; py "# @param x"]);
     mk_entry (py "def missing") 0 (py "# never placed")] in
  insert_comments T entries
  = join_nl [py "  # does foo"; py "  # @param x"; py "def foo(x)"; py "end"]
  ∧ line_count (insert_comments T entries) = (line_count T + 2)%nat
  ∧ split_nl T `sublist_of` split_nl (insert_comments T entries).
Proof.
  intros T entries. split; [vm_compute; reflexivity|].
  destruct (insert_comments_insertion_only T entries)
    as (Hsub & st' & blocks & Hrun & Hone & Hlines & Hcount).
  split; [|exact Hsub]. rewrite Hcount. f_equal.
  pose proof (process_entries_run entries (initial_state T)) as Hcode.
  destruct (Hone _ _ Hcode) as [_ Hb]. rewrite <- Hb.
  vm_compute. reflexivity.
Defined.

(** ** Skipped entries *)

Section Skipped.

Implicit Types (st : splice_state) (es : list pyval).

Lemma bad_entry_skipped st e :
  bad_entry st e = true →
  (process_entry st e).1 = st ∧ matched (process_entry st e).2 = false.
Proof.
  unfold bad_entry. rewrite process_entry_unfold.
  destruct (entry_fields e) as [[[anchor indent] comment_text]|x]; [|done].
  destruct anchor as [|a anchor]; [done|].
  destruct comment_text as [|c comment_text]; [done|].
  cbn [truthy negb orb]. rewrite !bool_decide_eq_false_2 by done. cbn [orb].
  destruct (find_anchor _ _ _); [|done].
  rewrite bool_decide_eq_false_2 by done. cbn [orb].
  by destruct (comment_block _ _).
Qed.

Lemma process_entries_app es1 es2 st :
  process_entries st (es1 ++ es2) =
  ((process_entries (process_entries st es1).1 es2).1,
   (process_entries st es1).2 ++ (process_entries (process_entries st es1).1 es2).2).
Proof.
  revert st. induction es1 as [|e es1 IH]; intros st.
  - cbn. by destruct (process_entries st es2).
  - rewrite <- app_comm_cons, !process_entries_cons, IH. done.
Qed.

Lemma matched_entries_from_app es1 es2 st :
  matched_entries_from st (es1 ++ es2) =
  matched_entries_from st es1
  ++ matched_entries_from (process_entries st es1).1 es2.
Proof.
  revert st. induction es1 as [|e es1 IH]; intros st; [done|].
  rewrite <- app_comm_cons, process_entries_cons.
  cbn [matched_entries_from fst].
  destruct (process_entry st e) as [st1 o]. cbn [fst].
  destruct (matched o); by rewrite IH.
Qed.

(** The final [lines] decide the result, also for the empty list. *)
Lemma insert_comments_join T es :
  insert_comments T es = join_nl (lines (process_entries (initial_state T) es).1).
Proof. destruct es; [|done]. cbn. by rewrite join_split. Qed.

Lemma insert_comments_matched T es :
  insert_comments T es = insert_comments T (matched_entries T es).
Proof.
  rewrite !insert_comments_join. unfold matched_entries.
  by rewrite process_matched_entries.
Qed.

End Skipped.

(** C8. An entry that is skipped (empty anchor, empty comment, anchor not
    found, or an exception) leaves the other entries to be processed as
    if it were not in the list: the result is that of the list without
    it, it is that of the matched entries alone, and the log has one
    record per entry. *)
Theorem skipped_entry_does_not_abort (T : str) (before after : list pyval)
    (bad : pyval) :
  bad_entry (process_entries (initial_state T) before).1 bad = true →
  insert_comments T (before ++ bad :: after) = insert_comments T (before ++ after)
  ∧ insert_comments T (before ++ bad :: after)
    = insert_comments T (matched_entries T (before ++ bad :: after))
  ∧ matched_entries T (before ++ bad :: after) = matched_entries T (before ++ after)
  ∧ length (insert_comments_log T (before ++ bad :: after))
    = length (before ++ bad :: after).
Proof.
  intros Hbad. apply bad_entry_skipped in Hbad as [Hst Hm].
  split_and!.
  - rewrite !insert_comments_join, !process_entries_app, process_entries_cons.
    cbn [fst]. by rewrite Hst.
  - apply insert_comments_matched.
  - unfold matched_entries. rewrite !matched_entries_from_app.
    f_equal. cbn [matched_entries_from].
    destruct (process_entry _ bad) as [st1 o]. cbn [fst snd] in *.
    by rewrite Hm, Hst.
  - apply process_entries_log_length.
Qed.

Lemma skipped_entry_does_not_abort_witness :
  insert_comments (join_nl [py "def foo(x)"; py "end"])
    ([mk_entry (py "def foo(x)") 0 (join_nl [py "# does foo"; py "# @param x"])]
     ++ mk_entry (py "def missing") 0 (py "# never placed")
     :: [mk_entry (py "end") 0 (py "# closes foo")])
  = join_nl [py "# does foo"; py "# @param x"; py "def foo(x)"; py "# closes foo"; py "end"].
Proof.
  pose proof (skipped_entry_does_not_abort (join_nl [py "def foo(x)"; py "end"])
    [mk_entry (py "def foo(x)") 0 (join_nl [py "# does foo"; py "# @param x"])]
    [mk_entry (py "end") 0 (py "# closes foo")]
    (mk_entry (py "def missing") 0 (py "# never placed"))) as H.
  destruct H as [H _]; [vm_compute; reflexivity|].
  rewrite H. vm_compute. reflexivity.
Defined.

(** ** The inserted block *)

(** C7, as the code has it.  The comment text is trimmed first; then every
    non-blank line of the trimmed text gets exactly [indent] spaces in
    front, every blank line becomes the empty string, the block has one
    line per line of the trimmed text and stands before the matched
    line. *)
Theorem comment_block_layout (st st' : splice_state) (entry : pyval)
    (anchor comment : str) (indent : Z) (idx : nat) (block : list str) :
  dict_get entry (py "anchor") (VStr []) = Ok (VStr anchor) →
  dict_get entry (py "indent") (VInt 0) = Ok (VInt indent) →
  dict_get entry (py "comment") (VStr []) = Ok (VStr comment) →
  (0 ≤ indent)%Z →
  process_entry st entry = (st', Inserted idx block) →
  ∃ n : nat,
    Z.of_nat n = indent
    ∧ block = laid_out n (strip comment)
    ∧ length block = line_count (strip comment)
    ∧ lines st' = take idx (lines st) ++ block ++ drop idx (lines st).
Proof.
  intros Ha Hi Hc Hpos H. exists (Z.to_nat indent).
  split; [lia|].
  pose proof (process_entry_cases _ _ _ _ H)
    as [[? _]|(idx' & block' & Ho & _ & _ & _ & _ & Hl & _)]; [done|].
  injection Ho as <- <-.
  assert (block = laid_out (Z.to_nat indent) (strip comment)) as Hb.
  { rewrite process_entry_unfold in H. unfold entry_fields in H.
    rewrite Ha, bind_Ok in H. cbn [str_strip] in H. rewrite bind_Ok, Hi, bind_Ok in H.
    rewrite Hc, bind_Ok in H. cbn [str_strip] in H. rewrite !bind_Ok in H.
    destruct (negb (truthy (strip anchor)) || negb (truthy (strip comment)));
      [done|].
    destruct (find_anchor _ _ _); [|done].
    unfold comment_block in H. cbn [space_times] in H.
    destruct (fits_index indent);
      [rewrite bind_Ok in H | by rewrite bind_Raise in H].
    injection H as _ _ <-. apply build_comment_lines_layout. }
  split; [done|]. split; [|done].
  rewrite Hb. unfold laid_out, line_count. by rewrite length_map.
Qed.

Lemma comment_block_layout_witness :
  ∃ n : nat,
    Z.of_nat n = 2%Z
    ∧ [py "  # Adds one"; []; py "  # @param x"]
      = laid_out n (strip (join_nl [py "# Adds one"; []; py "# @param x"; []])).
Proof.
  destruct (comment_block_layout
    (initial_state (join_nl [py "class A"; py "  def inc(x)"]))
    (SpliceState [py "class A"; py "  # Adds one"; []; py "  # @param x";
                  py "  def inc(x)"] {[1%nat]})
    (mk_entry (py "def inc") 2 (join_nl [py "# Adds one"; []; py "# @param x"; []]))
    (py "def inc") (join_nl [py "# Adds one"; []; py "# @param x"; []]) 2 1
    [py "  # Adds one"; []; py "  # @param x"])
    as (n & Hn & Hb & _); [reflexivity | reflexivity | reflexivity | lia | | ].
  - vm_compute. reflexivity.
  - exists n. split; [exact Hn | exact Hb].
Defined.

(** C7 as stated fails: an annotation text that begins with an empty line
    loses it, so the block is not the authored text laid out line by
    line. *)
Lemma comment_block_not_as_authored :
  let comment := join_nl [[]; py "# doc"] in
  process_entry (initial_state (py "def foo")) (mk_entry (py "def foo") 2 comment)
  = (SpliceState [py "  # doc"; py "def foo"] {[0%nat]},
     Inserted 0 [py "  # doc"])
  ∧ [py "  # doc"] ≠ laid_out 2 comment.
Proof. split; [vm_compute; reflexivity | discriminate]. Qed.

(** ** The set of used indices *)

(** After an insertion the matched line stands below its block, at an
    index the iteration did not record: the recorded index now holds the
    first line of the block. *)
Lemma matched_line_moves (st st' : splice_state) (e : pyval) (idx : nat)
    (block : list str) :
  process_entry st e = (st', Inserted idx block) →
  lines st' !! (idx + length block)%nat = lines st !! idx
  ∧ lines st' !! idx = block !! 0%nat
  ∧ inserted_at_lines st' = {[idx]} ∪ inserted_at_lines st
  ∧ (idx + length block)%nat ≠ idx.
Proof.
  intros H. apply process_entry_cases in H
    as [[? _]|(i & b & [= <- <-] & Hlt & _ & Hne & _ & Hl & Hs)]; [done|].
  assert (length (take idx (lines st)) = idx) as Htake
    by (rewrite length_take; lia).
  split_and!.
  - rewrite Hl, lookup_app_r by lia. rewrite Htake.
    rewrite lookup_app_r by lia.
    replace (idx + length block - idx - length block)%nat with 0%nat by lia.
    rewrite lookup_drop. by rewrite Nat.add_0_r.
  - rewrite Hl, lookup_app_r by lia. rewrite Htake, Nat.sub_diag.
    destruct block; [done|]. done.
  - done.
  - destruct block; [done|]. cbn [length]. lia.
Qed.

(** C1, evaluated where it fails.  The source has one line and both
    entries anchor on it: the first insertion records index 0, the anchor
    line moves to index 1, and the second entry matches it there, so the
    one original line receives two blocks. *)
Theorem same_line_matched_twice :
  let T := py "def bar" in
  let entries := [mk_entry (py "def bar") 0 (py "# one");
                  mk_entry (py "def bar") 0 (py "# two")] in
  process_entry (initial_state T) (mk_entry (py "def bar") 0 (py "# one"))
  = (SpliceState [py "# one"; py "def bar"] {[0%nat]},
     Inserted 0 [py "# one"])
  ∧ insert_comments_log T entries
    = [Inserted 0 [py "# one"]; Inserted 1 [py "# two"]]
  ∧ insert_comments T entries = join_nl [py "# one"; py "# two"; py "def bar"].
Proof. vm_compute. done. Qed.

(** C4, evaluated where it fails.  Two lines contain the anchor and two
    entries carry it: the second entry is matched, but to the first
    occurrence again (now at index 1), not to the second one. *)
Theorem second_entry_matches_first_occurrence :
  let T := join_nl [py "def bar"; py "end"; py "def bar"; py "end"] in
  let entries := [mk_entry (py "def bar") 0 (py "# first");
                  mk_entry (py "def bar") 0 (py "# second")] in
  insert_comments_log T entries
  = [Inserted 0 [py "# first"]; Inserted 1 [py "# second"]]
  ∧ insert_comments T entries
    = join_nl [py "# first"; py "# second"; py "def bar"; py "end";
               py "def bar"; py "end"]
  ∧ insert_comments T entries
    ≠ join_nl [py "# first"; py "def bar"; py "end"; py "# second";
               py "def bar"; py "end"].
Proof. vm_compute. done. Qed.

(** ** The fingerprint *)

Section Fingerprint.

Implicit Types (l : str) (ls : list str).

(** *** Trimming and containment *)

Lemma lstrip_app_nonspace (x : str) c :
  isspace c = false → lstrip (x ++ [c]) = lstrip x ++ [c].
Proof.
  intros Hc. induction x as [|a x IH]; cbn [lstrip app]; [by rewrite Hc|].
  by destruct (isspace a).
Qed.

Lemma strip_head l c r : lstrip l = c :: r → ∃ r', strip l = c :: r'.
Proof.
  intros H. pose proof (lstrip_head _ _ _ H) as Hc.
  unfold strip, rstrip. rewrite H. cbn [rev].
  rewrite lstrip_app_nonspace by done. rewrite rev_app_distr. cbn.
  by eexists.
Qed.

Lemma is_comment_strip l : startswith (py "#") (strip l) = is_comment l.
Proof.
  unfold is_comment. destruct (lstrip l) as [|c r] eqn:E.
  - apply lstrip_nil_iff, strip_nil_iff in E. by rewrite E.
  - destruct (strip_head _ _ _ E) as [r' ->]. change (py "#") with [35].
    cbn [startswith]. rewrite andb_true_r. apply N.eqb_sym.
Qed.

Lemma lstrip_split (s : str) :
  ∃ pre, s = pre ++ lstrip s ∧ blank pre = true.
Proof.
  induction s as [|c s (pre & IH & Hpre)]; [by exists []|]. cbn [lstrip].
  destruct (isspace c) eqn:Hc; [|by exists []].
  exists (c :: pre). split; [cbn; by f_equal|].
  unfold blank in *. cbn [forallb]. by rewrite Hc.
Qed.

Lemma rstrip_split (s : str) :
  ∃ post, s = rstrip s ++ post ∧ blank post = true.
Proof.
  destruct (lstrip_split (rev s)) as (pre & H & Hpre).
  exists (rev pre). split; [|by rewrite blank_rev].
  unfold rstrip. rewrite <- rev_app_distr, <- H. by rewrite rev_involutive.
Qed.

(** A text without white space is found in a line exactly when it is
    found in the trimmed line. *)
Section Containment.

Variable p : str.
Hypothesis p_not_empty : p ≠ [].
Hypothesis p_solid : forallb (λ c, negb (isspace c)) p = true.

Lemma startswith_blank (t : str) :
  blank t = true → startswith p t = false.
Proof.
  destruct p as [|a q]; [done|]. destruct t as [|c t]; [done|].
  unfold blank. cbn [forallb startswith] in *.
  intros [Hc _]%andb_prop. apply andb_prop in p_solid as [Ha _].
  destruct (N.eqb_spec a c) as [->|]; [|done]. by rewrite Hc in Ha.
Qed.

Lemma contains_blank (t : str) : blank t = true → contains p t = false.
Proof.
  induction t as [|c t IH]; intros Ht.
  - cbn [contains]. by rewrite startswith_blank.
  - cbn [contains]. rewrite startswith_blank by done.
    apply IH. unfold blank in *. cbn [forallb] in Ht.
    by apply andb_prop in Ht as [_ ?].
Qed.

Lemma contains_cons_blank c (s : str) :
  isspace c = true → contains p (c :: s) = contains p s.
Proof.
  intros Hc. cbn [contains]. destruct p as [|a q]; [done|].
  cbn [forallb startswith] in *. apply andb_prop in p_solid as [Ha _].
  destruct (N.eqb_spec a c) as [->|]; [|done]. by rewrite Hc in Ha.
Qed.

Lemma contains_lstrip (s : str) : contains p (lstrip s) = contains p s.
Proof.
  induction s as [|c s IH]; [done|]. cbn [lstrip].
  destruct (isspace c) eqn:Hc; [|done]. by rewrite contains_cons_blank.
Qed.

End Containment.

Lemma startswith_app_blank (p s t : str) :
  p ≠ [] → forallb (λ c, negb (isspace c)) p = true → blank t = true →
  startswith p (s ++ t) = startswith p s.
Proof.
  revert s. induction p as [|a p IH]; intros s Hne Hp Ht; [done|].
  destruct s as [|b s].
  - rewrite app_nil_l, startswith_blank by done. done.
  - cbn [app startswith]. destruct p as [|a' p']; [done|].
    rewrite IH; [done|done| |done].
    cbn [forallb] in Hp. by apply andb_prop in Hp as [_ ?].
Qed.

Lemma contains_app_blank (p s t : str) :
  p ≠ [] → forallb (λ c, negb (isspace c)) p = true → blank t = true →
  contains p (s ++ t) = contains p s.
Proof.
  intros Hne Hp Ht. induction s as [|b s IH].
  - rewrite app_nil_l, contains_blank by done. by destruct p.
  - change ((b :: s) ++ t) with (b :: (s ++ t)). cbn [contains].
    rewrite IH. f_equal.
    by apply (startswith_app_blank p (b :: s) t).
Qed.

Lemma contains_strip (p l : str) :
  p ≠ [] → forallb (λ c, negb (isspace c)) p = true →
  contains p (strip l) = contains p l.
Proof.
  intros Hne Hp. rewrite <- (contains_lstrip p Hne Hp l). unfold strip.
  destruct (rstrip_split (lstrip l)) as (post & H & Hpost).
  rewrite H at 2. by rewrite contains_app_blank.
Qed.

(** A text that holds [a ++ b] holds [b]. *)
Lemma startswith_contains (p s : str) :
  startswith p s = true → contains p s = true.
Proof. intros H. destruct s; cbn [contains]; by rewrite H. Qed.

Lemma startswith_app_drop (a b s : str) :
  startswith (a ++ b) s = true → startswith b (drop (length a) s) = true.
Proof.
  revert s. induction a as [|x a IH]; intros s; [done|].
  destruct s as [|y s]; [done|]. cbn [app startswith length drop].
  intros [_ H]%andb_prop. by apply IH.
Qed.

Lemma contains_drop (p s : str) n :
  contains p (drop n s) = true → contains p s = true.
Proof.
  revert s. induction n as [|n IH]; intros s; [by rewrite drop_0|].
  destruct s as [|c s]; [done|]. cbn [drop]. intros H%IH.
  cbn [contains]. rewrite H. apply orb_true_r.
Qed.

Lemma contains_app_r (a b s : str) :
  contains (a ++ b) s = true → contains b s = true.
Proof.
  induction s as [|c s IH]; intros H.
  - cbn [contains] in H. rewrite orb_false_r in H.
    apply startswith_app_drop, startswith_contains, contains_drop in H.
    exact H.
  - cbn [contains] in H. apply orb_prop in H as [H|H].
    + apply startswith_app_drop, startswith_contains, contains_drop in H.
      exact H.
    + apply IH in H. cbn [contains]. rewrite H. apply orb_true_r.
Qed.

Lemma has_doc_tag_strip l : has_yard_tag (strip l) = has_doc_tag l.
Proof.
  unfold has_yard_tag, has_doc_tag, yard_tags, doc_tags. cbn [existsb].
  by rewrite !contains_strip by (vm_compute; (reflexivity || discriminate)).
Qed.

Lemma mentions_coding_strip l :
  contains (py "coding:") (strip l) || contains (py "encoding:") (strip l)
  = mentions_coding l.
Proof.
  unfold mentions_coding.
  rewrite !contains_strip by (vm_compute; (reflexivity || discriminate)).
  destruct (contains (py "encoding:") l) eqn:E; [|apply orb_false_r].
  change (py "encoding:") with (py "en" ++ py "coding:") in E.
  apply contains_app_r in E. by rewrite E.
Qed.

(** *** The loop body and the rule *)

Lemma keeps_line_rule l : keeps_line l = negb (removed_by_rule l).
Proof.
  unfold keeps_line, removed_by_rule, is_spaced_comment, is_shebang.
  assert (startswith (py "# ") (strip l)
          = startswith (py "#") (strip l) && second_is_space (strip l)) as ->.
  { change (py "# ") with [35; 32]. change (py "#") with [35].
    destruct (strip l) as [|c [|d r]]; cbn [startswith second_is_space];
      [done| by rewrite !andb_false_r |].
    rewrite !andb_true_r. unfold space. by rewrite (N.eqb_sym 32 d). }
  rewrite <- orb_assoc, mentions_coding_strip, has_doc_tag_strip, is_comment_strip.
  destruct (is_comment l), (has_doc_tag l), (second_is_space (strip l));
    cbn [andb orb negb]; try done;
    by destruct (startswith (py "#!") (strip l)), (mentions_coding l).
Qed.

Lemma code_lines_of_filter ls :
  code_lines_of ls = filter (λ l, removed_by_rule l = false) ls.
Proof.
  induction ls as [|l ls IH]; [done|]. cbn [code_lines_of].
  rewrite keeps_line_rule, IH.
  destruct (removed_by_rule l) eqn:Hr; cbn [negb].
  - by rewrite filter_cons_False by congruence.
  - by rewrite filter_cons_True.
Qed.

Lemma code_lines_of_app ls1 ls2 :
  code_lines_of (ls1 ++ ls2) = code_lines_of ls1 ++ code_lines_of ls2.
Proof. rewrite !code_lines_of_filter. apply filter_app. Qed.

Lemma code_lines_of_removed ls :
  Forall (λ l, removed_by_rule l = true) ls → code_lines_of ls = [].
Proof.
  induction 1 as [|l ls Hl _ IH]; [done|]. cbn [code_lines_of].
  by rewrite keeps_line_rule, Hl.
Qed.

(** ** Encoding and digest *)

Lemma encode_char_Ok c :
  Utf8.encodable_char c = true → ∃ bs, Utf8.encode_char c = Ok bs.
Proof.
  unfold Utf8.encodable_char, Utf8.encode_char. intros [Hlt Hs]%andb_prop.
  apply negb_true_iff in Hs. rewrite Hs, Hlt.
  repeat (match goal with |- context [if ?b then _ else _] => destruct b end;
          eauto).
Qed.

Lemma encode_Ok (s : str) :
  Forall (λ c, Utf8.encodable_char c = true) s → ∃ bs, Utf8.encode s = Ok bs.
Proof.
  induction 1 as [|c s Hc _ [bs IH]]; [by eexists|]. cbn [Utf8.encode].
  destruct (encode_char_Ok c Hc) as [b ->]. rewrite bind_Ok, IH, bind_Ok.
  by eexists.
Qed.


Lemma join_nl_Forall (P : N → Prop) ls :
  P newline → Forall (Forall P) ls → Forall P (join_nl ls).
Proof.
  intros Hn. induction 1 as [|l ls Hl Hls IH]; [done|].
  destruct ls as [|l' ls]; [done|]. rewrite join_nl_cons by done.
  apply Forall_app. split; [done|]. by constructor.
Qed.






End Fingerprint.

(** The fingerprint hashes the lines the rule keeps, whatever the text. *)
Lemma compute_code_hash_filter (content : str) :
  compute_code_hash content
  = (bytes ← Utf8.encode
       (join_nl (filter (λ l, removed_by_rule l = false) (split_nl content)));
     Ok (take 16 (Sha256.hexdigest bytes))).
Proof. unfold compute_code_hash. by rewrite code_lines_of_filter. Qed.

(** Two texts with the same kept lines have the same fingerprint. *)
Lemma compute_code_hash_kept_lines (t1 t2 : str) :
  code_lines_of (split_nl t1) = code_lines_of (split_nl t2) →
  compute_code_hash t1 = compute_code_hash t2.
Proof. unfold compute_code_hash. by intros ->. Qed.



(** C6 as stated fails: a comment line that declares the encoding with
    an equals sign is left out of the fingerprint, so that changing or
    deleting the declaration leaves the fingerprint as it was; and a
    comment line that holds [coding:] without declaring anything is
    kept. *)
Lemma encoding_declaration_not_retained :
  let declaration := py "# coding=utf-8" in
  let mention := py "# coding:" in
  is_encoding_declaration declaration = true
  ∧ is_spaced_comment declaration = true
  ∧ code_lines_of (split_nl (join_nl [declaration; py "x = 1"])) = [py "x = 1"]
  ∧ compute_code_hash (join_nl [declaration; py "x = 1"])
    = Ok (py "8ff436def1451285")
  ∧ compute_code_hash (py "x = 1") = Ok (py "8ff436def1451285")
  ∧ is_encoding_declaration mention = false
  ∧ is_shebang mention = false
  ∧ is_spaced_comment mention = true
  ∧ code_lines_of (split_nl (join_nl [mention; py "x = 1"]))
    = [mention; py "x = 1"]
  ∧ compute_code_hash (join_nl [mention; py "x = 1"])
    = Ok (py "fdd3f230bd9aaf89").
Proof. vm_compute. split_and!; reflexivity. Qed.

(** ** The fingerprint of a spliced text *)

Section Invariance.

Implicit Types (st : splice_state) (es : list pyval).

Lemma process_entry_code_lines st e :
  adds_only_removed (process_entry st e).2 →
  code_lines_of (lines (process_entry st e).1) = code_lines_of (lines st).
Proof.
  destruct (process_entry st e) as [st' o] eqn:H. cbn [fst snd].
  apply process_entry_cases in H
    as [[Hm ->]|(idx & block & -> & _ & _ & _ & _ & -> & _)]; [done|].
  unfold adds_only_removed. cbn [inserted_block]. intros Hall.
  rewrite !code_lines_of_app, (code_lines_of_removed block Hall).
  rewrite app_nil_l, <- code_lines_of_app. by rewrite take_drop.
Qed.

Lemma process_entries_code_lines es : ∀ st,
  Forall adds_only_removed (process_entries st es).2 →
  code_lines_of (lines (process_entries st es).1) = code_lines_of (lines st).
Proof.
  induction es as [|e es IH]; intros st; [done|].
  rewrite process_entries_cons. cbn [fst snd].
  intros [He Hes]%Forall_cons. rewrite IH by done.
  by apply process_entry_code_lines.
Qed.

End Invariance.

(** C3, as the code has it.  When every line a call inserts is a line the
    fingerprint removes (a tagged comment line, or a marker-and-space
    comment line that is no encoding declaration), the fingerprint of the
    result is the fingerprint of the source. *)
Theorem fingerprint_of_spliced_text (T : str) (entries : list pyval) :
  Forall adds_only_removed (insert_comments_log T entries) →
  compute_code_hash (insert_comments T entries) = compute_code_hash T.
Proof.
  intros Hall. unfold compute_code_hash.
  rewrite split_insert_comments.
  by rewrite (process_entries_code_lines entries (initial_state T) Hall).
Qed.

Lemma fingerprint_of_spliced_text_witness :
  let T := join_nl [py "def foo(x)"; py "end"] in
  let entries := [mk_entry (py "def foo(x)") 0
                    (join_nl [py "# does foo"; py "# @param x"])] in
  insert_comments T entries
  = join_nl [py "# does foo"; py "# @param x"; py "def foo(x)"; py "end"]
  ∧ compute_code_hash (insert_comments T entries) = compute_code_hash T.
Proof.
  intros T entries. split; [vm_compute; reflexivity|].
  apply (fingerprint_of_spliced_text T entries).
  apply Forall_Forall_of_forallb. vm_compute. reflexivity.
Defined.

(** C3 as stated fails: a block of documentation comment lines with a
    blank line between them adds an empty line, which the fingerprint
    keeps. *)
Lemma fingerprint_changed_by_blank_line :
  let T := join_nl [py "def foo(x)"; py "end"] in
  let entries := [mk_entry (py "def foo(x)") 0
                    (join_nl [py "# does foo"; []; py "# @param x"])] in
  Forall (λ o, Forall (λ l, annotation_line l = true) (inserted_block o))
         (insert_comments_log T entries)
  ∧ insert_comments T entries
    = join_nl [py "# does foo"; []; py "# @param x"; py "def foo(x)"; py "end"]
  ∧ compute_code_hash T = Ok (py "20f1ea2d64857a5f")
  ∧ compute_code_hash (insert_comments T entries) = Ok (py "9ad0b557ca6612e8")
  ∧ compute_code_hash (insert_comments T entries) ≠ compute_code_hash T.
Proof.
  intros T entries. split.
  { apply Forall_Forall_of_forallb. vm_compute. reflexivity. }
  assert (compute_code_hash T = Ok (py "20f1ea2d64857a5f")) as H1
    by (vm_compute; reflexivity).
  assert (compute_code_hash (insert_comments T entries)
          = Ok (py "9ad0b557ca6612e8")) as H2 by (vm_compute; reflexivity).
  split; [vm_compute; reflexivity|]. split; [exact H1|]. split; [exact H2|].
  rewrite H1, H2. vm_compute. discriminate.
Qed.

(** ** The skip decision *)

(** The tests of [is_file_processed], one after the other. *)
Lemma is_file_processed_tests (g : generator) (fs : filesystem) (file_path : Path) :
  is_file_processed g fs file_path = true
  ↔ incremental g = true
    ∧ ∃ stored_info content current_hash,
        default ∅ (processed_files (manifest g)) !! path_str file_path
        = Some stored_info
        ∧ path_exists fs (documented_file g file_path) = true
        ∧ read_text fs (path_str file_path) = Ok content
        ∧ compute_code_hash content = Ok current_hash
        ∧ content_hash stored_info = Some current_hash.
Proof.
  unfold is_file_processed, current_and_stored.
  destruct (incremental g); cbn [negb];
    [|split; [done | by intros [? _]]].
  destruct (default ∅ (processed_files (manifest g)) !! path_str file_path)
    as [info|]; [|split; [done | by intros [_ (? & ? & ? & ? & _)]]].
  destruct (path_exists fs (documented_file g file_path)); cbn [negb];
    [|split; [done | by intros [_ (? & ? & ? & _ & ? & _)]]].
  destruct (read_text fs (path_str file_path)) as [content|x];
    [rewrite bind_Ok
    |rewrite bind_Raise; split; [done | by intros [_ (? & ? & ? & _ & _ & ? & _)]]].
  destruct (compute_code_hash content) as [h|x] eqn:Hc;
    [rewrite !bind_Ok|rewrite bind_Raise].
  - case_bool_decide as Hne.
    + split; [done|].
      intros [_ (info' & c' & h' & Hi & _ & Hr & Hh & Hs)]. simplify_eq.
      congruence.
    + split; [|done]. intros _. split; [done|].
      by exists info, content, h.
  - split; [done|].
    intros [_ (info' & c' & h' & _ & _ & Hr & Hh & _)]. simplify_eq.
    congruence.
Qed.

(** C5. [is_file_processed] answers true exactly when incremental mode is
    on, the manifest has an entry for the path, a file of the source's
    name exists in the directory [documented] of the output directory,
    the source can be read and hashed, and the fresh hash is the stored
    one; it is a total function, so in every other case it answers
    false. *)
Theorem is_file_processed_iff (g : generator) (fs : filesystem) (file_path : Path) :
  is_file_processed g fs file_path = true
  ↔ incremental g = true
    ∧ ∃ stored_info content current_hash,
        default ∅ (processed_files (manifest g)) !! path_str file_path
        = Some stored_info
        ∧ is_Some (fs !! (output_dir g ++ py "/documented/"
                          ++ path_name file_path))
        ∧ read_text fs (path_str file_path) = Ok content
        ∧ compute_code_hash content = Ok current_hash
        ∧ content_hash stored_info = Some current_hash.
Proof.
  rewrite is_file_processed_tests. unfold path_exists, documented_file.
  split; intros [Hi (info & c & h & Hm & Hout & Hrest)];
    (split; [done|]); exists info, c, h; (split; [done|]);
    (split; [|done]).
  - by apply bool_decide_eq_true_1 in Hout.
  - by apply bool_decide_eq_true_2.
Qed.

(** A recorded, unchanged source is skipped when its output stands in
    [documented]; with the output anywhere else (here beside the source
    and directly in the output directory) it is not. *)
Lemma is_file_processed_iff_witness :
  let src := MkPath (py "lib/foo.rb") (py "foo.rb") in
  let info := ManifestEntry (py "2025-01-01T00:00:00") (py "mock")
                            (Some (py "20f1ea2d64857a5f")) (py "foo.rb") in
  let g := Generator true (py "mock") (py "output/latest")
             (Manifest (Some {[py "lib/foo.rb" := info]}) (Some [])
                       (py "2025-01-01T00:00:00")) in
  let documented := join_nl [py "# does foo"; py "def foo(x)"; py "end"] in
  let fs : filesystem :=
    {[py "lib/foo.rb" := Readable (join_nl [py "def foo(x)"; py "end"]);
      py "output/latest/documented/foo.rb" := Readable documented]} in
  let fs' : filesystem :=
    {[py "lib/foo.rb" := Readable (join_nl [py "def foo(x)"; py "end"]);
      py "output/latest/foo.rb" := Readable documented;
      py "lib/documented/foo.rb" := Readable documented]} in
  is_file_processed g fs src = true
  ∧ is_file_processed g fs' src = false.
Proof.
  intros src info g documented fs fs'. split.
  - apply (is_file_processed_iff g fs src).
    split; [reflexivity|].
    exists info, (join_nl [py "def foo(x)"; py "end"]), (py "20f1ea2d64857a5f").
    split_and!; [reflexivity| |vm_compute; reflexivity..].
    apply (bool_decide_eq_true_1 (is_Some _)). vm_compute. reflexivity.
  - destruct (is_file_processed g fs' src) eqn:E; [|reflexivity].
    apply (is_file_processed_iff g fs' src) in E
      as (_ & _ & _ & _ & _ & Hout & _).
    apply (bool_decide_eq_true_2 (is_Some _)) in Hout.
    vm_compute in Hout. discriminate Hout.
Defined.

(** ** Recording a failure *)

(** C10. Recording a failure raises nothing, leaves the processed-files
    map as it was, leaves the failed-files list as it was when the path
    is in it and appends the path otherwise, so that the path is in the
    list afterwards; recording the same failure again changes nothing. *)
Theorem record_failure_idempotent (g : generator) (d : disk) (now now' : str)
    (file_path : Path) (content content' : option str) :
  let r := mark_file_processed g d now file_path false content in
  let old := default [] (failed_files (manifest g)) in
  let m' := manifest r.1.1 in
  r.2 = None
  ∧ processed_files m' = processed_files (manifest g)
  ∧ failed_files m'
    = Some (if bool_decide (path_str file_path ∈ old) then old
            else old ++ [path_str file_path])
  ∧ path_str file_path ∈ default [] (failed_files m')
  ∧ manifest
      (mark_file_processed r.1.1 r.1.2 now' file_path false content').1.1
    = m'.
Proof.
  intros r old m'. subst r m'. unfold mark_file_processed.
  cbn [fst snd manifest set_manifest processed_files failed_files
       timestamp default option_rect from_option].
  fold old. split; [done|]. split; [done|]. split; [done|].
  assert (path_str file_path
          ∈ (if bool_decide (path_str file_path ∈ old) then old
             else old ++ [path_str file_path])) as Hin.
  { case_bool_decide; [done|]. apply elem_of_app. right. by apply list_elem_of_singleton. }
  split; [done|]. by rewrite (bool_decide_eq_true_2 _ Hin).
Qed.

(** ** The JSON scanner: its fuel is enough, its exceptions are two *)

Section JsonFuel.

Import Json.

Implicit Types (s r : str).

Lemma opens_cons c r :
  opens (c :: r)
  = ((if (c =? 91)%N || (c =? 123)%N then 1 else 0) + opens r)%nat.
Proof. unfold opens. cbn [List.filter]. by destruct ((c =? 91) || (c =? 123)). Qed.

Lemma opens_drop n : ∀ s, (opens (drop n s) ≤ opens s)%nat.
Proof.
  induction n as [|n IH]; intros [|c s]; cbn [drop]; try done.
  rewrite opens_cons. specialize (IH s). lia.
Qed.

Lemma skip_ws_measure s :
  (length (skip_ws s) ≤ length s ∧ opens (skip_ws s) ≤ opens s)%nat.
Proof.
  induction s as [|c s IH]; cbn [skip_ws]; [done|].
  destruct (is_ws c); [|done]. rewrite opens_cons. cbn [length]. lia.
Qed.

Lemma startswith_length p s :
  startswith p s = true → (length p ≤ length s)%nat.
Proof.
  revert s. induction p as [|a p IH]; intros [|b s]; cbn; try done; [lia|].
  intros [_ H]%andb_prop. apply IH in H. lia.
Qed.

Lemma span_digits_measure s ds r :
  span_digits s = (ds, r) →
  (length r ≤ length s ∧ opens r ≤ opens s ∧ length ds ≤ length s)%nat.
Proof.
  revert ds r. induction s as [|c s IH]; intros ds r; cbn [span_digits].
  - by intros [= <- <-].
  - destruct (is_digit c); [|intros [= <- <-]; cbn [length]; lia].
    destruct (span_digits s) as [ds' r'] eqn:E. intros [= <- <-].
    destruct (IH _ _ eq_refl) as (? & ? & ?).
    rewrite opens_cons. cbn [length]. lia.
Qed.

Lemma scan_string_measure n : ∀ s t rest,
  (length s ≤ n)%nat → scan_string s = Some (t, rest) →
  (length rest < length s ∧ opens rest ≤ opens s)%nat.
Proof.
  induction n as [|n IH]; intros s t rest Hn H.
  - destruct s; [done | cbn in Hn; lia].
  - destruct s as [|c r]; [done|]. cbn [scan_string] in H.
    unfold mbind, option_bind in H.
    repeat (match type of H with
            | context [if ?b then _ else _] => destruct b
            | context [match ?x with _ => _ end] => destruct x eqn:?
            end; try discriminate);
      simplify_eq;
      repeat match goal with
             | E : scan_string ?x = Some _ |- _ =>
                 apply IH in E as [? ?]; [|cbn [length] in *; lia]
             end;
      rewrite ?opens_cons in *; cbn [length] in *; lia.
Qed.

Lemma literal_measure w v s v' r :
  w ≠ EmptyString → literal w v s = Some (v', r) →
  (length r < length s ∧ opens r ≤ opens s)%nat.
Proof.
  unfold literal. intros Hw. destruct (startswith (py w) s) eqn:E; [|done].
  intros [= <- <-]. apply startswith_length in E.
  split; [|apply opens_drop]. rewrite length_drop.
  destruct w; [done|]. cbn [py list_ascii_of_string map length] in *. lia.
Qed.

(** Case analysis on every test the hypotheses still contain. *)
Ltac split_cases :=
  repeat (match goal with
          | H : context [if ?b then _ else _] |- _ => destruct b
          | H : context [match ?x with _ => _ end] |- _ => destruct x eqn:?
          end; try discriminate);
  simplify_eq;
  repeat match goal with
         | E : span_digits _ = _ |- _ =>
             apply span_digits_measure in E as (? & ? & ?)
         end;
  rewrite ?opens_cons in *; cbn [length] in *.

Lemma int_part_measure s neg ds r :
  int_part s = Some (neg, ds, r) →
  (length r < length s ∧ opens r ≤ opens s ∧ length ds ≤ length s)%nat.
Proof. unfold int_part. intros H. split_cases; lia. Qed.

Lemma frac_part_measure s frac r :
  frac_part s = (frac, r) → (length r ≤ length s ∧ opens r ≤ opens s)%nat.
Proof. unfold frac_part. intros H. split_cases; lia. Qed.

Lemma exp_part_measure s ex r :
  exp_part s = (ex, r) → (length r ≤ length s ∧ opens r ≤ opens s)%nat.
Proof. unfold exp_part. intros H. split_cases; lia. Qed.

Lemma int_of_literal_Raise max_digits neg ds e :
  int_of_literal max_digits neg ds = Raise e →
  e = ValueError
  ∧ (0 < max_digits ∧ max_digits < length ds ∧ 640 < length ds)%nat.
Proof.
  unfold int_of_literal, too_many_digits.
  destruct (Nat.ltb_spec 640 (length ds)); [|done].
  destruct (Nat.ltb_spec 0 max_digits); [|done].
  destruct (Nat.ltb_spec max_digits (length ds)); [|done].
  cbn [andb]. by intros [= <-].
Qed.

Lemma match_number_measure max_digits s res r :
  match_number max_digits s = Some (res, r) →
  (length r < length s ∧ opens r ≤ opens s)%nat
  ∧ ∀ e, res = Raise e →
      e = ValueError
      ∧ (0 < max_digits ∧ max_digits < length s ∧ 640 < length s)%nat.
Proof.
  unfold match_number.
  destruct (int_part s) as [[[neg ds] r0]|] eqn:Ei; [|done].
  destruct (frac_part r0) as [frac r1] eqn:Ef.
  destruct (exp_part r1) as [ex r2] eqn:Ee.
  apply int_part_measure in Ei as (? & ? & ?).
  apply frac_part_measure in Ef as (? & ?).
  apply exp_part_measure in Ee as (? & ?).
  destruct frac, ex; intros [= <- <-]; (split; [lia|]); intros e He;
    try discriminate.
  apply int_of_literal_Raise in He as (-> & ? & ? & ?). split; [done|lia].
Qed.

Lemma scan_atom_consumes max_digits depth s :
  consumes max_digits depth s (scan_atom max_digits s).
Proof.
  unfold scan_atom.
  destruct (_ ∪ _) as [[v r]|] eqn:E.
  - cbn [consumes].
    repeat (apply union_Some in E as [E|[_ E]]);
      (eapply literal_measure; [|exact E]; done).
  - destruct (match_number max_digits s) as [[[v|e] r]|] eqn:En;
      cbn [consumes]; [| |done].
    + by apply match_number_measure in En as [? _].
    + apply match_number_measure in En as [_ He].
      right. by apply He.
Qed.

Lemma scan_fuel max_digits fuel :
  (∀ depth s, (2 * length s < fuel)%nat →
     consumes max_digits depth s (scan_once max_digits fuel depth s))
  ∧ (∀ depth s acc, (2 * length s + 1 < fuel)%nat →
       consumes max_digits depth s (array_items max_digits fuel depth s acc))
  ∧ (∀ depth s acc, (2 * length s + 1 < fuel)%nat →
       consumes max_digits depth s (object_items max_digits fuel depth s acc)).
Proof.
  induction fuel as [|f (IHs & IHa & IHo)]; [split_and!; intros; lia|].
  split_and!.
  - intros depth s Hf. destruct s as [|c r]; [done|]. cbn [scan_once].
    cbn [length] in Hf. pose proof (skip_ws_measure r) as [Hr Hor].
    pose proof (opens_cons c r) as Hc.
    destruct (c =? 34) eqn:E34.
    { destruct (scan_string r) as [[v rest]|] eqn:E; [|done].
      apply (scan_string_measure (length r)) in E as [? ?]; [|lia].
      cbn [consumes length]. lia. }
    destruct (c =? 123) eqn:E123.
    { rewrite orb_true_r in Hc.
      destruct depth as [|d]; [left; split; [done|lia]|].
      destruct (skip_ws r) as [|c' r'] eqn:Er; [done|]. cbn [length] in Hr.
      pose proof (opens_cons c' r') as Hc'.
      destruct (c' =? 125); [cbn [consumes length]; lia|].
      specialize (IHo d (c' :: r') []). cbn [length] in IHo.
      specialize (IHo ltac:(lia)).
      destruct (object_items max_digits f d (c' :: r') []) as [v r1| |e|];
        cbn [consumes length] in *; [lia|done| |done].
      destruct IHo as [[-> ?]|(-> & ? & ? & ?)]; [left|right];
        (split; [done|lia]). }
    destruct (c =? 91) eqn:E91.
    { cbn [orb] in Hc.
      destruct depth as [|d]; [left; split; [done|lia]|].
      destruct (skip_ws r) as [|c' r'] eqn:Er; [done|]. cbn [length] in Hr.
      pose proof (opens_cons c' r') as Hc'.
      destruct (c' =? 93); [cbn [consumes length]; lia|].
      specialize (IHa d (c' :: r') []). cbn [length] in IHa.
      specialize (IHa ltac:(lia)).
      destruct (array_items max_digits f d (c' :: r') []) as [v r1| |e|];
        cbn [consumes length] in *; [lia|done| |done].
      destruct IHa as [[-> ?]|(-> & ? & ? & ?)]; [left|right];
        (split; [done|lia]). }
    apply scan_atom_consumes.
  - intros depth s acc Hf. cbn [array_items].
    specialize (IHs depth s ltac:(lia)).
    destruct (scan_once max_digits f depth s) as [v r| |e|];
      [|done|exact IHs|done].
    cbn [consumes] in IHs. destruct IHs as [? ?].
    pose proof (skip_ws_measure r) as [Hr Hor].
    destruct (skip_ws r) as [|c r']; [done|]. cbn [length] in Hr.
    pose proof (opens_cons c r') as Hc.
    destruct (c =? 93); [cbn [consumes]; lia|].
    destruct (c =? 44); [|done].
    pose proof (skip_ws_measure r') as [Hr' Hor'].
    specialize (IHa depth (skip_ws r') (v :: acc) ltac:(lia)).
    destruct (array_items max_digits f depth (skip_ws r') (v :: acc))
      as [v1 r1| |e|]; cbn [consumes] in *; [lia|done| |done].
    destruct IHa as [[-> ?]|(-> & ? & ? & ?)]; [left|right];
      (split; [done|lia]).
  - intros depth s acc Hf. cbn [object_items].
    destruct s as [|q r]; [done|]. cbn [length] in Hf.
    pose proof (opens_cons q r) as Hq.
    destruct (q =? 34); [|done].
    destruct (scan_string r) as [[k r1]|] eqn:E; [|done].
    apply (scan_string_measure (length r)) in E as [? ?]; [|lia].
    pose proof (skip_ws_measure r1) as [Hr1 Hor1].
    destruct (skip_ws r1) as [|colon r2]; [done|]. cbn [length] in Hr1.
    pose proof (opens_cons colon r2) as Hcolon.
    destruct (colon =? 58); [|done].
    pose proof (skip_ws_measure r2) as [Hr2 Hor2].
    specialize (IHs depth (skip_ws r2) ltac:(lia)).
    destruct (scan_once max_digits f depth (skip_ws r2)) as [v r3| |e|];
      [|done| |done].
    2:{ cbn [consumes length] in *.
        destruct IHs as [[-> ?]|(-> & ? & ? & ?)]; [left|right];
          (split; [done|lia]). }
    cbn [consumes] in IHs. destruct IHs as [? ?].
    pose proof (skip_ws_measure r3) as [Hr3 Hor3].
    destruct (skip_ws r3) as [|c r4]; [done|]. cbn [length] in Hr3.
    pose proof (opens_cons c r4) as Hc.
    destruct (c =? 125); [cbn [consumes length]; lia|].
    destruct (c =? 44); [|done].
    pose proof (skip_ws_measure r4) as [Hr4 Hor4].
    specialize (IHo depth (skip_ws r4) (dict_set k v acc) ltac:(lia)).
    destruct (object_items max_digits f depth (skip_ws r4) (dict_set k v acc))
      as [v1 r5| |e|]; cbn [consumes length] in *; [lia|done| |done].
    destruct IHo as [[-> ?]|(-> & ? & ? & ?)]; [left|right];
      (split; [done|lia]).
Qed.

(** [json.loads] raises [JSONDecodeError], or [RecursionError] on a text
    with more opening brackets than nested calls are left, or
    [ValueError] on a text longer than the digit limit in force: nothing
    else, and the last two only when the limit is within reach. *)
Lemma loads_raises lim s e :
  loads lim s = Raise e →
  e = JSONDecodeError
  ∨ (e = RecursionError ∧ (recursion_budget lim < opens s)%nat)
  ∨ (e = ValueError
     ∧ (0 < int_max_str_digits lim)%nat
     ∧ (int_max_str_digits lim < length s)%nat ∧ (640 < length s)%nat).
Proof.
  unfold loads. destruct (startswith _ s); [intros [= <-]; by left|].
  pose proof (skip_ws_measure s) as [Hs Hos].
  destruct (scan_fuel (int_max_str_digits lim) (2 * length s + 2))
    as (Hfuel & _ & _).
  specialize (Hfuel (recursion_budget lim) (skip_ws s) ltac:(lia)).
  destruct (scan_once _ _ _ _) as [v r| |x|]; [| | |done].
  - destruct (skip_ws r); [done | intros [= <-]; by left].
  - intros [= <-]. by left.
  - intros [= <-]. right. cbn [consumes] in Hfuel.
    destruct Hfuel as [[-> ?]|(-> & ? & ? & ?)]; [left|right];
      (split; [done|lia]).
Qed.

End JsonFuel.

(** ** Ingestion *)

Section Fences.

Implicit Types (pat s pre post : str).

Lemma startswith_spec pat s :
  startswith pat s = true ↔ ∃ post, s = pat ++ post.
Proof.
  revert s. induction pat as [|a pat IH]; intros s.
  - split; [by exists s | done].
  - destruct s as [|b s]; cbn [startswith].
    + split; [done | by intros [? ?]].
    + rewrite andb_true_iff, N.eqb_eq, IH. split.
      * intros [-> [post ->]]. by exists post.
      * intros [post [= -> ->]]. split; [done | by exists post].
Qed.

Lemma before_first_unfold pat s :
  Regex.before_first pat s
  = if startswith pat s then Some []
    else match s with
         | [] => None
         | c :: r => cons c <$> Regex.before_first pat r
         end.
Proof. by destruct s. Qed.

Lemma after_first_unfold pat s :
  Regex.after_first pat s
  = if startswith pat s then Some (drop (length pat) s)
    else match s with
         | [] => None
         | _ :: r => Regex.after_first pat r
         end.
Proof. by destruct s. Qed.

Lemma before_first_spec pat s pre :
  Regex.before_first pat s = Some pre ↔ ∃ post, first_occurrence pat s pre post.
Proof.
  unfold first_occurrence. split.
  - revert pre. induction s as [|c s IH]; intros pre;
      rewrite before_first_unfold; destruct (startswith pat _) eqn:E;
      try (intros [= <-]; apply startswith_spec in E as [post E];
           exists post; split; [exact E | intros k Hk; cbn in Hk; lia]);
      [done|].
    destruct (Regex.before_first pat s) as [b|]; [|done]. intros [= <-].
    destruct (IH b eq_refl) as (post & -> & Hfirst).
    exists post. split; [done|]. intros [|k] Hk; [done|].
    cbn [drop]. apply Hfirst. cbn [length] in Hk. lia.
  - intros (post & -> & Hfirst). induction pre as [|c pre IH].
    + rewrite before_first_unfold.
      assert (startswith pat ([] ++ pat ++ post) = true) as ->; [|done].
      apply startswith_spec. by exists post.
    + pose proof (Hfirst 0%nat ltac:(cbn [length]; lia)) as E0.
      rewrite drop_0 in E0. rewrite before_first_unfold, E0.
      cbn [app]. rewrite IH; [done|].
      intros k Hk. apply (Hfirst (S k)). cbn [length]. lia.
Qed.

Lemma after_first_spec pat s post :
  Regex.after_first pat s = Some post ↔ ∃ pre, first_occurrence pat s pre post.
Proof.
  unfold first_occurrence. split.
  - induction s as [|c s IH]; rewrite after_first_unfold;
      destruct (startswith pat _) eqn:E;
      try (intros [= <-]; apply startswith_spec in E as [post' E];
           exists []; split; [|intros k Hk; cbn in Hk; lia];
           assert (drop (length pat) (pat ++ post') = post') as Hd
             by apply drop_app_length;
           rewrite <- E in Hd; rewrite Hd; exact E);
      [done|].
    intros (pre & -> & Hfirst)%IH. exists (c :: pre). split; [done|].
    intros [|k] Hk; [done|]. cbn [drop]. apply Hfirst. cbn [length] in Hk. lia.
  - intros (pre & -> & Hfirst). induction pre as [|c pre IH].
    + rewrite after_first_unfold.
      assert (startswith pat ([] ++ pat ++ post) = true) as ->
        by (apply startswith_spec; by exists post).
      cbn [app]. by rewrite drop_app_length.
    + pose proof (Hfirst 0%nat ltac:(cbn [length]; lia)) as E0.
      rewrite drop_0 in E0. rewrite after_first_unfold, E0.
      cbn [app]. apply IH.
      intros k Hk. apply (Hfirst (S k)). cbn [length]. lia.
Qed.

Lemma first_json_block_spec response block :
  Regex.first_json_block response = Some block ↔ fenced_block response block.
Proof.
  unfold Regex.first_json_block, fenced_block. split.
  - destruct (Regex.after_first _ response) as [rest|] eqn:E; [|done].
    cbn. intros (post & H)%before_first_spec.
    apply after_first_spec in E as [pre E]. by exists rest, pre, post.
  - intros (rest & pre & post & E & H).
    assert (Regex.after_first Regex.fence_open response = Some rest) as ->
      by (apply after_first_spec; by exists pre).
    cbn. apply before_first_spec. by exists post.
Qed.

End Fences.

(** C9, as the code has it.  The text handed to the decoder is the
    trimmed content of the first json code fence when there is one, else
    the first bracketed array of objects, else the whole trimmed
    response.  A text that is not valid JSON yields the empty list and a
    text that decodes to a list yields that list; a text that decodes to
    anything else raises [ValueError] out of the function, and what the
    decoder raises at a limit of the interpreter passes through it too:
    nothing but a [ValueError] and a [RecursionError] escapes, the second
    only on a text with more opening brackets than nested calls are left.
    The caller [process_file] catches whatever escapes and counts the
    file as failed, as it does for the empty list. *)
Theorem extract_comments_json_outcome (lim : limits) (response : str) :
  let text := json_text_of response in
  (∀ block, fenced_block response block → text = strip block)
  ∧ ((∀ block, ¬ fenced_block response block) →
     text = default (strip response) (Regex.search_array response))
  ∧ match Json.loads lim text with
    | Ok (VList comments) => extract_comments_json lim response = Ok comments
    | Ok _ => extract_comments_json lim response = Raise ValueError
    | Raise JSONDecodeError => extract_comments_json lim response = Ok []
    | Raise e => extract_comments_json lim response = Raise e
    end
  ∧ (∀ e, extract_comments_json lim response = Raise e →
       e = ValueError
       ∨ (e = RecursionError ∧ (recursion_budget lim < opens text)%nat))
  ∧ (∀ rs fs generate now file_path original_content,
       read_text fs (path_str file_path) = Ok original_content →
       generate (path_name file_path) original_content = Ok response →
       extract_comments_json lim response = Ok []
       ∨ (∃ e, extract_comments_json lim response = Raise e) →
       process_file lim rs fs generate now file_path
       = (RunState (gen rs) (documentation rs)
                   (self_failed_files rs ++ [path_name file_path]),
          None)).
Proof.
  intros text. subst text. split_and!.
  - intros block H%first_json_block_spec. unfold json_text_of. by rewrite H.
  - intros Hnone. unfold json_text_of.
    destruct (Regex.first_json_block response) as [block|] eqn:E.
    + apply first_json_block_spec in E. by destruct (Hnone block).
    + by destruct (Regex.search_array response).
  - unfold extract_comments_json.
    destruct (Json.loads lim (json_text_of response)) as [[]|[]]; done.
  - intros e. unfold extract_comments_json.
    destruct (Json.loads lim (json_text_of response)) as [v|x] eqn:E.
    + destruct v; intros [= <-]; by left.
    + apply loads_raises in E as [->|[[-> ?]|[-> _]]]; [done| |];
        intros [= <-]; [by right | by left].
  - intros rs fs generate now file_path original_content Hr Hg He.
    unfold process_file, read_and_extract. rewrite Hr, bind_Ok, Hg, bind_Ok.
    destruct He as [->|[e ->]]; [by rewrite bind_Ok | by rewrite bind_Raise].
Qed.

(** C9 as stated fails: a response that is one JSON object, not an array,
    decodes without error, and the [ValueError] raised for it is not
    caught in [extract_comments_json]. *)
Lemma bare_object_raises_value_error :
  let response := jq "{'anchor': 'def foo', 'indent': 0, 'comment': '# doc'}" in
  json_text_of response = response
  ∧ Json.loads default_limits (json_text_of response)
    = Ok (mk_entry (py "def foo") 0 (py "# doc"))
  ∧ extract_comments_json default_limits response = Raise ValueError
  ∧ extract_comments_json default_limits response ≠ Ok [].
Proof. vm_compute. split_and!; (reflexivity || discriminate). Qed.

Example extract_from_fence :
  extract_comments_json default_limits
    (py "Here you go:" ++ [newline] ++ fence ++ py "json" ++ [newline]
     ++ jq "[{'anchor': 'def foo', 'indent': 0, 'comment': '# doc'}]"
     ++ [newline] ++ fence ++ py " Done.")
  = Ok [mk_entry (py "def foo") 0 (py "# doc")].
Proof. vm_compute. reflexivity. Qed.

Example extract_from_prose :
  extract_comments_json default_limits
    (jq "The entries are [ {'anchor': 'class A', 'comment': '# A'} ] as asked.")
  = Ok [VDict [(py "anchor", VStr (py "class A")); (py "comment", VStr (py "# A"))]].
Proof. vm_compute. reflexivity. Qed.

Example extract_malformed :
  extract_comments_json default_limits (py "I could not document this file.")
  = Ok []
  ∧ process_response default_limits (py "def foo")
      (py "I could not document this file.") = None.
Proof. vm_compute. done. Qed.

Example process_response_scenario :
  process_response default_limits (join_nl [py "def foo(x)"; py "end"])
    (jq "[{'anchor': 'def foo(x)', 'indent': 0, 'comment': '# does foo\n# @param x'}]")
  = Some (join_nl [py "# does foo"; py "# @param x"; py "def foo(x)"; py "end"]).
Proof. vm_compute. reflexivity. Qed.

(** The two limits at work: three arrays inside one another with two
    nested calls left, and an integer of 4301 digits under the default
    limit of 4300; with the limit lifted the same integer is a value, not
    a list. *)
Example extract_at_the_limits :
  extract_comments_json (Limits 2 4300) (py "[[[1]]]") = Raise RecursionError
  ∧ extract_comments_json (Limits 3 4300) (py "[[[1]]]")
    = Ok [VList [VList [VInt 1]]]
  ∧ extract_comments_json default_limits (replicate 4301 49)
    = Raise ValueError
  ∧ extract_comments_json default_limits (py "[" ++ replicate 4301 49 ++ py "]")
    = Raise ValueError
  ∧ extract_comments_json default_limits (py "[" ++ replicate 4300 49 ++ py "]")
    ≠ Raise ValueError.
Proof.
  split_and!; [vm_compute; reflexivity..|].
  destruct (extract_comments_json _ _) as [v|e] eqn:E; [done|].
  vm_compute in E. discriminate E.
Qed.

(** ** The digest on known inputs *)

Example sha256_constants :
  take 2 Sha256.K = [0x428a2f98; 0x71374491]
  ∧ last Sha256.K = Some 0xc67178f2
  ∧ Sha256.wa Sha256.H0 = 0x6a09e667
  ∧ Sha256.wh Sha256.H0 = 0x5be0cd19.
Proof. vm_compute. done. Qed.

Example sha256_empty :
  Sha256.hexdigest []
  = py "e3b0c44298fc1c149afbf4c8996fb92427ae41e4649b934ca495991b7852b855".
Proof. vm_compute. reflexivity. Qed.

Example sha256_abc :
  Sha256.hexdigest (py "abc")
  = py "ba7816bf8f01cfea414140de5dae2223b00361a396177a9cb410ff61f20015ad".
Proof. vm_compute. reflexivity. Qed.

Example sha256_two_blocks :
  Sha256.hexdigest
    (py "abcdbcdecdefdefgefghfghighijhijkijkljklmklmnlmnomnopnopq")
  = py "248d6a61d20638b8e5c026930c3e6039a33ce45964ff2167f6ecedd419db06c1".
Proof. vm_compute. reflexivity. Qed.

Example utf8_encode_sample :
  Utf8.encode [0x20AC; 0x1F600; 0xE9]
  = Ok [226; 130; 172; 240; 159; 152; 128; 195; 169]
  ∧ Utf8.encode [0xD800] = Raise UnicodeEncodeError.
Proof. vm_compute. done. Qed.

(** * Further properties of the code *)

Lemma Forall_false_of_forallb {A} (f : A → bool) (l : list A) :
  forallb (λ x, negb (f x)) l = true → Forall (λ x, f x = false) l.
Proof.
  intros H. apply Forall_of_forallb in H.
  eapply Forall_impl; [exact H|]. intros x Hx. by apply negb_true_iff.
Qed.


(** ** The search for the anchor line, characterised *)

(** X1. The search returns an index exactly when that index is the
    least one whose line contains the anchor and is not in
    [inserted_at_lines]. *)
Theorem find_anchor_is_first_match (anchor : str) (ls : list str)
    (used : gset nat) (idx : nat) :
  find_anchor anchor ls used = Some idx
  ↔ anchor_at anchor ls used idx
    ∧ ∀ j, (j < idx)%nat → ¬ anchor_at anchor ls used j.
Proof.
  split; [apply find_anchor_Some_first|].
  intros [Hat Hleast]. by apply find_anchor_intro.
Qed.

(** X2. The search finds nothing exactly when no line contains the
    anchor at an index outside [inserted_at_lines]. *)
Theorem find_anchor_none_iff (anchor : str) (ls : list str) (used : gset nat) :
  find_anchor anchor ls used = None ↔ ∀ j, ¬ anchor_at anchor ls used j.
Proof.
  split; [apply find_anchor_None_all|].
  intros Hall. destruct (find_anchor anchor ls used) as [k|] eqn:Hf; [|done].
  apply find_anchor_Some_first in Hf as [Hk _]. by destruct (Hall k).
Qed.


(** ** Where the block goes *)



(** ** A call that matches nothing *)

Lemma process_entries_unmatched (es : list pyval) : ∀ st,
  Forall (λ o, matched o = false) (process_entries st es).2 →
  (process_entries st es).1 = st.
Proof.
  induction es as [|e es IH]; intros st; [done|].
  rewrite process_entries_cons. cbn [fst snd].
  intros [He Hes]%Forall_cons. rewrite IH by done.
  by apply process_entry_skip.
Qed.

(** X4. When no entry of a call is matched, the text comes back as it
    was, character for character. *)
Theorem unmatched_call_returns_text (T : str) (entries : list pyval) :
  Forall (λ o, matched o = false) (insert_comments_log T entries) →
  insert_comments T entries = T.
Proof.
  intros H. rewrite insert_comments_join.
  rewrite (process_entries_unmatched entries (initial_state T) H).
  apply join_split.
Qed.

Lemma unmatched_call_returns_text_witness :
  let T := join_nl [py "def foo(x)"; []; py "end"; []] in
  let entries := [mk_entry (py "def bar") 0 (py "# bar"); VInt 3;
                  mk_entry (py "") 0 (py "# nothing")] in
  insert_comments T entries = T.
Proof.
  intros T entries. apply (unmatched_call_returns_text T entries).
  apply Forall_false_of_forallb. vm_compute. reflexivity.
Defined.

(** ** The same anchor again *)

(** X5. After an insertion at [idx], a later entry with the same trimmed
    anchor is matched at [idx + length block], which is the line the first
    entry was matched to, provided the rest of the first block does not
    contain the anchor and that index is not recorded: the recorded index
    [idx] now holds the first line of the block. *)
Theorem same_anchor_matches_same_line (st st1 : splice_state) (e e2 : pyval)
    (idx : nat) (block block2 : list str) (anchor comment_text comment_text2 : str)
    (indent indent2 : pyval) :
  entry_fields e = Ok (anchor, indent, comment_text) →
  process_entry st e = (st1, Inserted idx block) →
  entry_fields e2 = Ok (anchor, indent2, comment_text2) →
  comment_text2 ≠ [] →
  comment_block indent2 comment_text2 = Ok block2 →
  Forall (λ l, contains anchor l = false) (drop 1 block) →
  (idx + length block)%nat ∉ inserted_at_lines st →
  lines st1 !! (idx + length block)%nat = lines st !! idx
  ∧ process_entry st1 e2
    = (SpliceState
         (take (idx + length block) (lines st1) ++ block2
          ++ drop (idx + length block) (lines st1))
         ({[(idx + length block)%nat]} ∪ inserted_at_lines st1),
       Inserted (idx + length block) block2).
Proof.
  intros Hf H Hf2 Hc2 Hb2 Htail Hfree.
  pose proof (matched_line_moves _ _ _ _ _ H) as (Hmoved & _ & Hused & Hne).
  pose proof (process_entry_cases _ _ _ _ H)
    as [[? _]|(i & b & [= <- <-] & Hlt & _ & _ & _ & Hl & _)]; [done|].
  apply process_entry_Inserted_inv in H
    as (a & i & c & Hf' & Ha & _ & Hfind & _ & _).
  rewrite Hf in Hf'. injection Hf' as <- <- <-.
  apply find_anchor_Some_first in Hfind as [(line & Hline & Hc & Hu) Hleast].
  split; [done|].
  apply process_entry_Inserted_intro with (anchor := anchor)
    (indent := indent2) (comment_text := comment_text2); try done.
  assert (length (take idx (lines st)) = idx) as Htake
    by (rewrite length_take; lia).
  apply find_anchor_intro.
  - exists line. split; [by rewrite Hmoved|]. split; [done|].
    rewrite Hused. apply not_elem_of_union.
    split; [by apply not_elem_of_singleton|done].
  - intros j Hj (l & Hjl & Hjc & Hju). rewrite Hused in Hju.
    destruct (decide (j < idx)%nat) as [Hlo|Hhi].
    + apply (Hleast j Hlo). exists l.
      apply not_elem_of_union in Hju as [_ Hju]. split_and!; [|done|done].
      rewrite Hl, lookup_app_l in Hjl by lia. by rewrite lookup_take_lt in Hjl.
    + destruct (decide (j = idx)) as [->|Hne'].
      { apply not_elem_of_union in Hju as [Hju _]. by apply not_elem_of_singleton in Hju. }
      rewrite Hl, lookup_app_r in Hjl by lia. rewrite Htake in Hjl.
      rewrite lookup_app_l in Hjl by lia.
      assert (l ∈ drop 1 block) as Hin.
      { apply list_elem_of_lookup. exists (j - idx - 1)%nat.
        rewrite lookup_drop. by replace (1 + (j - idx - 1))%nat with (j - idx)%nat by lia. }
      rewrite Forall_forall in Htail. specialize (Htail l Hin). congruence.
Qed.

Lemma same_anchor_matches_same_line_witness :
  let st := SpliceState [py "class A"; py "  def bar"; py "  end"] ∅ in
  let e := mk_entry (py "def bar") 2 (join_nl [py "# one"; py "# more"]) in
  let e2 := mk_entry (py " def bar") 2 (py "# two") in
  (process_entry (process_entry st e).1 e2).2 = Inserted 3 [py "  # two"]
  ∧ lines (process_entry (process_entry st e).1 e2).1
    = [py "class A"; py "  # one"; py "  # more"; py "  # two";
       py "  def bar"; py "  end"].
Proof.
  intros st e e2.
  destruct (same_anchor_matches_same_line st (process_entry st e).1 e e2 1
    [py "  # one"; py "  # more"] [py "  # two"] (py "def bar")
    (join_nl [py "# one"; py "# more"]) (py "# two") (VInt 2) (VInt 2))
    as [_ ->]; try (vm_compute; reflexivity).
  - discriminate.
  - apply Forall_false_of_forallb. vm_compute. reflexivity.
  - vm_compute. set_solver.
  - split; vm_compute; reflexivity.
Defined.

(** ** Indentation and trimming of an entry *)

Section Trim.

Implicit Types (s : str).

Lemma lstrip_suffix s : ∃ pre, s = pre ++ lstrip s.
Proof.
  induction s as [|c s [pre IH]]; [by exists []|]. cbn [lstrip].
  destruct (isspace c); [|by exists []].
  exists (c :: pre). cbn. by rewrite <- IH.
Qed.

Lemma lstrip_fixed s c r : s = c :: r → isspace c = false → lstrip s = s.
Proof. intros -> Hc. cbn [lstrip]. by rewrite Hc. Qed.

Lemma lstrip_idem s : lstrip (lstrip s) = lstrip s.
Proof.
  destruct (lstrip s) as [|c r] eqn:E; [done|].
  apply lstrip_head in E. by eapply lstrip_fixed.
Qed.

(** A trimmed text neither begins nor ends with white space, so trimming
    it again changes nothing. *)
Lemma strip_idem s : strip (strip s) = strip s.
Proof.
  unfold strip, rstrip. set (t := lstrip s). set (v := lstrip (rev t)).
  assert (lstrip (rev v) = rev v) as ->;
    [|rewrite rev_involutive; unfold v; by rewrite lstrip_idem].
  destruct (rev v) as [|c u] eqn:Eu; [done|].
  eapply lstrip_fixed; [done|].
  destruct (lstrip_suffix (rev t)) as [pre Hpre]. fold v in Hpre.
  apply (f_equal (@rev N)) in Hpre.
  rewrite rev_involutive, rev_app_distr, Eu in Hpre. cbn in Hpre.
  by apply (lstrip_head s c (u ++ rev pre)).
Qed.

End Trim.

(** X6. White space around the anchor and around the comment text of an
    entry is ignored: the entry behaves as the entry with both trimmed. *)
Theorem entry_is_trimmed (st : splice_state) (anchor comment : str) (indent : Z) :
  process_entry st (mk_entry anchor indent comment)
  = process_entry st (mk_entry (strip anchor) indent (strip comment)).
Proof.
  rewrite !process_entry_unfold.
  change (entry_fields (mk_entry anchor indent comment))
    with (Ok (A := str * pyval * str) (strip anchor, VInt indent, strip comment)).
  change (entry_fields (mk_entry (strip anchor) indent (strip comment)))
    with (Ok (A := str * pyval * str)
            (strip (strip anchor), VInt indent, strip (strip comment))).
  by rewrite !strip_idem.
Qed.



(** ** When the fingerprint can be computed *)

Section HashErrors.

Implicit Types (s : str) (ls : list str).

Lemma encode_char_Ok_inv c bs :
  Utf8.encode_char c = Ok bs → Utf8.encodable_char c = true.
Proof.
  unfold Utf8.encode_char, Utf8.encodable_char.
  destruct (N.ltb_spec c 0x80); [intros _|].
  { apply andb_true_iff. split; [apply N.ltb_lt; lia|].
    apply negb_true_iff, andb_false_iff. left. apply N.leb_gt. lia. }
  destruct (N.ltb_spec c 0x800); [intros _|].
  { apply andb_true_iff. split; [apply N.ltb_lt; lia|].
    apply negb_true_iff, andb_false_iff. left. apply N.leb_gt. lia. }
  destruct ((0xD800 <=? c) && (c <=? 0xDFFF)) eqn:Hs; [done|].
  destruct (N.ltb_spec c 0x10000); [intros _|].
  { apply andb_true_iff. split; [apply N.ltb_lt; lia|done]. }
  destruct (c <? 0x110000); [done|done].
Qed.

Lemma encode_char_Raise c e : Utf8.encode_char c = Raise e → e = UnicodeEncodeError.
Proof.
  unfold Utf8.encode_char.
  repeat (match goal with |- context [if ?b then _ else _] => destruct b end;
          try done); by intros [= <-].
Qed.

Lemma encode_Ok_inv s bs :
  Utf8.encode s = Ok bs → Forall (λ c, Utf8.encodable_char c = true) s.
Proof.
  revert bs. induction s as [|c s IH]; intros bs; [by constructor|].
  cbn [Utf8.encode].
  destruct (Utf8.encode_char c) as [b|x] eqn:Hc; [rewrite bind_Ok|done].
  destruct (Utf8.encode s) as [rest|x] eqn:Hs; [rewrite bind_Ok|done].
  intros _. constructor; [by eapply encode_char_Ok_inv | by eapply IH].
Qed.

Lemma encode_Raise s e : Utf8.encode s = Raise e → e = UnicodeEncodeError.
Proof.
  induction s as [|c s IH]; [done|]. cbn [Utf8.encode].
  destruct (Utf8.encode_char c) as [b|x] eqn:Hc;
    [rewrite bind_Ok | rewrite bind_Raise; intros [= <-]; by eapply encode_char_Raise].
  destruct (Utf8.encode s) as [rest|x] eqn:Hs; [done|].
  rewrite bind_Raise. intros [= <-]. by apply IH.
Qed.

Lemma join_nl_Forall_inv (P : N → Prop) ls :
  Forall P (join_nl ls) → Forall (Forall P) ls.
Proof.
  induction ls as [|l ls IH]; [done|]. destruct ls as [|l' ls].
  - cbn. by repeat constructor.
  - rewrite join_nl_cons by done. intros [Hl Hrest]%Forall_app.
    apply Forall_cons in Hrest as [_ Hrest]. constructor; [done|by apply IH].
Qed.

Lemma code_lines_of_Forall (P : str → Prop) ls :
  Forall P (code_lines_of ls)
  ↔ Forall (λ line, keeps_line line = true → P line) ls.
Proof.
  induction ls as [|l ls IH]; [done|]. cbn [code_lines_of].
  destruct (keeps_line l) eqn:Hk; rewrite ?Forall_cons, IH.
  - split; intros [H1 H2]; split; auto.
  - split; [intros H; split; [congruence|exact H] | by intros [_ H]].
Qed.

End HashErrors.

(** X8. The fingerprint can be computed exactly when every line it keeps
    is made of code points UTF-8 can encode; a lone surrogate in a removed
    comment line does no harm, and the only exception is
    [UnicodeEncodeError]. *)
Theorem compute_code_hash_succeeds_iff (content : str) :
  ((∃ digest, compute_code_hash content = Ok digest)
   ↔ Forall (λ line, keeps_line line = true →
                     Forall (λ c, Utf8.encodable_char c = true) line)
            (split_nl content))
  ∧ ∀ e, compute_code_hash content = Raise e → e = UnicodeEncodeError.
Proof.
  unfold compute_code_hash. split; [split|].
  - intros [digest H].
    destruct (Utf8.encode _) as [bytes|x] eqn:He; [|done].
    apply encode_Ok_inv, join_nl_Forall_inv in He.
    by apply code_lines_of_Forall in He.
  - intros H. apply code_lines_of_Forall in H.
    apply (join_nl_Forall (λ c, Utf8.encodable_char c = true) _ eq_refl),
      encode_Ok in H as [bytes ->].
    by eexists.
  - intros e. destruct (Utf8.encode _) as [bytes|x] eqn:He; [done|].
    rewrite bind_Raise. intros [= <-]. by eapply encode_Raise.
Qed.

(** ** The fingerprint and documentation lines *)

Lemma no_newline_of_check (l : str) : has_no_newline l = true → no_newline l.
Proof.
  unfold has_no_newline, no_newline. intros H Hin.
  apply Forall_of_forallb in H. rewrite Forall_forall in H.
  specialize (H _ Hin). by rewrite N.eqb_refl in H.
Qed.

Lemma no_newline_lines_of_check (ls : list str) :
  forallb has_no_newline ls = true → Forall no_newline ls.
Proof.
  intros H. apply Forall_of_forallb in H.
  eapply Forall_impl; [exact H|]. apply no_newline_of_check.
Qed.

Section HashLines.

Implicit Types (l : str) (ls : list str).

Lemma code_content_of_lines ls :
  Forall no_newline ls →
  join_nl (code_lines_of (split_nl (join_nl ls))) = join_nl (code_lines_of ls).
Proof.
  intros Hnl. destruct ls as [|l ls]; [done|]. by rewrite split_join.
Qed.

Lemma code_lines_of_idem ls : code_lines_of (code_lines_of ls) = code_lines_of ls.
Proof.
  induction ls as [|l ls IH]; [done|]. cbn [code_lines_of].
  destruct (keeps_line l) eqn:Hk; [|done]. cbn [code_lines_of]. by rewrite Hk, IH.
Qed.

Lemma code_lines_of_no_newline ls :
  Forall no_newline ls → Forall no_newline (code_lines_of ls).
Proof.
  induction 1 as [|l ls Hl _ IH]; [done|]. cbn [code_lines_of].
  destruct (keeps_line l); [by constructor | done].
Qed.

End HashLines.

(** X9. Adding a line the fingerprint removes, anywhere in a text, or
    deleting one, leaves the fingerprint as it was. *)
Theorem fingerprint_ignores_removed_line (above below : list str) (l : str) :
  Forall no_newline above → Forall no_newline below → no_newline l →
  removed_by_rule l = true →
  compute_code_hash (join_nl (above ++ l :: below))
  = compute_code_hash (join_nl (above ++ below)).
Proof.
  intros Ha Hb Hl Hr. unfold compute_code_hash.
  rewrite !code_content_of_lines;
    [|rewrite Forall_app; by split
     |rewrite Forall_app; split; [done|by constructor]].
  rewrite !code_lines_of_app. cbn [code_lines_of].
  by rewrite keeps_line_rule, Hr.
Qed.

Lemma fingerprint_ignores_removed_line_witness :
  compute_code_hash
    (join_nl ([py "class A"] ++ py "  # @return [A] a new one"
              :: [py "  def make"; py "  end"; py "end"]))
  = compute_code_hash
      (join_nl ([py "class A"] ++ [py "  def make"; py "  end"; py "end"])).
Proof.
  apply fingerprint_ignores_removed_line.
  - apply no_newline_lines_of_check. vm_compute. reflexivity.
  - apply no_newline_lines_of_check. vm_compute. reflexivity.
  - apply no_newline_of_check. vm_compute. reflexivity.
  - vm_compute. reflexivity.
Defined.

(** X10. Hashing the text with the removed lines already taken out gives
    the same fingerprint: the stripping is idempotent. *)
Theorem fingerprint_of_stripped_text (content : str) :
  compute_code_hash (join_nl (code_lines_of (split_nl content)))
  = compute_code_hash content.
Proof.
  unfold compute_code_hash.
  rewrite code_content_of_lines
    by apply code_lines_of_no_newline, split_no_newline.
  by rewrite code_lines_of_idem.
Qed.

(** ** Recording a success *)

Section RecordSuccess.

Implicit Types (g : generator) (d : disk) (fs : filesystem).

Lemma success_hash_without_content d file_path :
  success_hash d file_path None
  = Ok (match (txt ← read_text (files d) (path_str file_path);
               compute_code_hash txt) with
        | Ok h => Some h
        | Raise _ => None
        end).
Proof. unfold success_hash. by destruct (_ ≫= _). Qed.

Lemma files_save_manifest m d : files (save_manifest m d) = files d.
Proof. unfold save_manifest. by destruct (manifest_writable d). Qed.

(** What [is_file_processed] answers for a path whose record is known. *)
Lemma is_file_processed_recorded g fs file_path info :
  incremental g = true →
  default ∅ (processed_files (manifest g)) !! path_str file_path = Some info →
  is_file_processed g fs file_path
  = path_exists fs (documented_file g file_path)
    && match (txt ← read_text fs (path_str file_path); compute_code_hash txt) with
       | Ok h => bool_decide (content_hash info = Some h)
       | Raise _ => false
       end.
Proof.
  intros Hinc Hinfo. unfold is_file_processed, current_and_stored.
  rewrite Hinc, Hinfo. cbn [negb].
  destruct (path_exists fs _); cbn [negb andb]; [|done].
  destruct (read_text fs _) as [txt|x];
    [rewrite !bind_Ok|by rewrite !bind_Raise].
  destruct (compute_code_hash txt) as [h|x];
    [rewrite !bind_Ok|by rewrite !bind_Raise].
  repeat case_bool_decide; congruence.
Qed.

End RecordSuccess.



(** X12. A success recorded while the source cannot be read or hashed
    stores no fingerprint, and the file is then never skipped, whatever
    the file system holds later. *)
Theorem success_without_hash_is_never_skipped (g : generator) (d : disk)
    (now : str) (file_path : Path) (e : exn) :
  (txt ← read_text (files d) (path_str file_path); compute_code_hash txt)
  = Raise e →
  (mark_file_processed g d now file_path true None).2 = None
  ∧ ∀ fs,
      is_file_processed (mark_file_processed g d now file_path true None).1.1
                        fs file_path = false.
Proof.
  intros Hraise. unfold mark_file_processed.
  rewrite success_hash_without_content, Hraise. split; [done|].
  intros fs. cbn [fst snd].
  destruct (incremental g) eqn:Hinc;
    [|unfold is_file_processed; cbn; by rewrite Hinc].
  rewrite (is_file_processed_recorded _ fs file_path
             (ManifestEntry now (provider_name g) None (path_name file_path)));
    [|done|cbn; by rewrite lookup_insert_eq].
  apply andb_false_iff. right. cbn [content_hash].
  destruct (read_text fs _ ≫= _); [|done]. by apply bool_decide_eq_false.
Qed.

Lemma success_without_hash_is_never_skipped_witness :
  let src := MkPath (py "lib/foo.rb") (py "foo.rb") in
  let g := Generator true (py "mock") (py "out") (Manifest None None (py "t0")) in
  let fs' : filesystem :=
    {[py "lib/foo.rb" := Readable (py "def foo(x)");
      py "out/documented/foo.rb" := Readable (py "def foo(x)")]} in
  is_file_processed
    (mark_file_processed g (Disk ∅ None true) (py "t1") src true None).1.1
    fs' src = false.
Proof.
  intros src g fs'.
  by destruct (success_without_hash_is_never_skipped g (Disk ∅ None true)
                 (py "t1") src OSError) as [_ ->].
Defined.

(** X13. Recording a success touches one record only: every other path
    of the processed-files map keeps its record, and the failed-files
    list is left as it was, so a path that failed earlier stays listed
    after it succeeds. *)
Theorem record_success_frame (g : generator) (d : disk) (now : str)
    (file_path : Path) (content : option str) :
  let m' := manifest (mark_file_processed g d now file_path true content).1.1 in
  failed_files m' = failed_files (manifest g)
  ∧ timestamp m' = timestamp (manifest g)
  ∧ ∀ q, q ≠ path_str file_path →
      default ∅ (processed_files m') !! q
      = default ∅ (processed_files (manifest g)) !! q.
Proof.
  unfold mark_file_processed.
  destruct (success_hash d file_path content) as [h|x]; cbn.
  - split_and!; [done|done|]. intros q Hq. by rewrite lookup_insert_ne.
  - done.
Qed.


(** ** Loading the manifest *)

(** X15. [load_manifest] never raises and always returns a dict whose
    [processed_files], when present, has a length: a missing file, an
    unreadable file, text that is not JSON and JSON that is not such an
    object all give the empty manifest of a first run. *)
Theorem load_manifest_is_dict (lim : limits) (fs : filesystem) (manifest_file now : str) :
  ∃ items,
    load_manifest lim fs manifest_file now = VDict items
    ∧ (∃ n, py_len (default (VList []) (assoc (py "processed_files") items))
            = Ok n)
    ∧ (VDict items = empty_manifest now
       ∨ ∃ txt, read_text fs manifest_file = Ok txt
                ∧ Json.loads lim txt = Ok (VDict items)).
Proof.
  assert (∃ items, empty_manifest now = VDict items
            ∧ (∃ n, py_len (default (VList [])
                              (assoc (py "processed_files") items)) = Ok n)
            ∧ (VDict items = empty_manifest now
               ∨ ∃ txt, read_text fs manifest_file = Ok txt
                        ∧ Json.loads lim txt = Ok (VDict items))) as Hempty.
  { eexists. split; [reflexivity|]. split; [by exists 0%nat | by left]. }
  unfold load_manifest, try_load_manifest.
  destruct (path_exists fs manifest_file); [|exact Hempty].
  destruct (read_text fs manifest_file) as [txt|x]; [rewrite bind_Ok|exact Hempty].
  destruct (Json.loads lim txt) as [loaded|x] eqn:Hl; [rewrite bind_Ok|exact Hempty].
  destruct loaded as [| | | | | |items]; try exact Hempty.
  cbn [dict_get]. rewrite bind_Ok.
  destruct (py_len _) as [n|x] eqn:Hn; [rewrite bind_Ok|exact Hempty].
  exists items. split; [done|]. split; [by exists n|]. right. by exists txt.
Qed.

Example load_manifest_samples :
  let fs : filesystem :=
    {[py "a.json" := Readable (jq "{'processed_files': {'x.rb': {}}, 'failed_files': []}");
      py "b.json" := Readable (jq "[1, 2]");
      py "c.json" := Readable (jq "{'processed_files': 3}");
      py "d.json" := Readable (jq "{'failed_files': ['x.rb']}");
      py "e.json" := Readable (py "{not json")]} in
  load_manifest default_limits fs (py "a.json") (py "t")
  = VDict [(py "processed_files", VDict [(py "x.rb", VDict [])]);
           (py "failed_files", VList [])]
  ∧ load_manifest default_limits fs (py "b.json") (py "t") = empty_manifest (py "t")
  ∧ load_manifest default_limits fs (py "c.json") (py "t") = empty_manifest (py "t")
  ∧ load_manifest default_limits fs (py "d.json") (py "t")
    = VDict [(py "failed_files", VList [VStr (py "x.rb")])]
  ∧ load_manifest default_limits fs (py "e.json") (py "t") = empty_manifest (py "t")
  ∧ load_manifest default_limits fs (py "none.json") (py "t") = empty_manifest (py "t").
Proof. vm_compute. done. Qed.

(** ** The comment sidecar *)

Section Yard.

Implicit Types (ls : list str) (st : splice_state).

Lemma yard_comments_of_app ls1 ls2 :
  yard_comments_of (ls1 ++ ls2) = yard_comments_of ls1 ++ yard_comments_of ls2.
Proof.
  induction ls1 as [|l ls1 IH]; [done|]. cbn [app yard_comments_of].
  destruct (is_yard_line l); [|done]. by rewrite IH.
Qed.

Lemma yard_comments_of_sublist ls1 ls2 :
  ls1 `sublist_of` ls2 → yard_comments_of ls1 `sublist_of` yard_comments_of ls2.
Proof.
  induction 1 as [|x l1 l2 _ IH|x l1 l2 _ IH]; cbn [yard_comments_of];
    [done| |]; destruct (is_yard_line x); try done.
  - by apply sublist_skip.
  - by apply sublist_cons.
Qed.

Lemma process_entry_yard st e :
  length (yard_comments_of (lines (process_entry st e).1))
  = (length (yard_comments_of (lines st))
     + length (yard_comments_of (inserted_block (process_entry st e).2)))%nat.
Proof.
  destruct (process_entry st e) as [st' o] eqn:H. cbn [fst snd].
  apply process_entry_cases in H
    as [[Hm ->]|(idx & block & -> & _ & _ & _ & _ & -> & _)].
  - destruct o; (done || (cbn; lia)).
  - cbn [inserted_block]. rewrite !yard_comments_of_app, !length_app.
    rewrite <- (take_drop idx (lines st)) at 3.
    rewrite yard_comments_of_app, length_app. lia.
Qed.

Lemma process_entries_yard (es : list pyval) : ∀ st,
  length (yard_comments_of (lines (process_entries st es).1))
  = (length (yard_comments_of (lines st))
     + inserted_yard_count (process_entries st es).2)%nat.
Proof.
  induction es as [|e es IH]; intros st.
  - cbn. unfold inserted_yard_count. cbn. lia.
  - rewrite process_entries_cons. cbn [fst snd].
    rewrite IH, process_entry_yard. unfold inserted_yard_count. cbn. lia.
Qed.

End Yard.

(** X16. The comment lines collected from a spliced text are the comment
    lines of the source, in their order, with those of the inserted
    blocks among them: none is lost and their number grows by the comment
    lines inserted. *)
Theorem yard_comments_of_spliced_text (T : str) (entries : list pyval) :
  yard_comments_of (split_nl T)
    `sublist_of` yard_comments_of (split_nl (insert_comments T entries))
  ∧ length (yard_comments_of (split_nl (insert_comments T entries)))
    = (length (yard_comments_of (split_nl T))
       + inserted_yard_count (insert_comments_log T entries))%nat.
Proof.
  rewrite split_insert_comments. split.
  - apply yard_comments_of_sublist.
    apply (process_entries_sublist entries (initial_state T)).
  - apply (process_entries_yard entries (initial_state T)).
Qed.

(** ** One file through the worker *)

Section Worker.

Implicit Types (rs : run_state) (d : disk) (g : generator) (p : Path).

Lemma mark_success_no_exception g d now p :
  (mark_file_processed g d now p true None).2 = None.
Proof.
  unfold mark_file_processed. by rewrite success_hash_without_content.
Qed.

Lemma gen_process_file (lim : limits) rs fs generate now p :
  gen (process_file lim rs fs generate now p).1 = gen rs.
Proof.
  unfold process_file.
  by destruct (read_and_extract lim fs generate p) as [[o [|c cs]]|x].
Qed.

Lemma process_file_failed_files (lim : limits) rs fs generate now p :
  self_failed_files (process_file lim rs fs generate now p).1
  = match (process_file lim rs fs generate now p).2 with
    | Some _ => self_failed_files rs
    | None => self_failed_files rs ++ [path_name p]
    end.
Proof.
  unfold process_file.
  by destruct (read_and_extract lim fs generate p) as [[o [|c cs]]|x].
Qed.

Lemma record_failed_spec rs d now p :
  record_failed rs d now p
  = (set_gen rs (mark_file_processed (gen rs) d now p false None).1.1,
     (mark_file_processed (gen rs) d now p false None).1.2, false).
Proof.
  unfold record_failed.
  by destruct (mark_file_processed (gen rs) d now p false None) as [[g' d'] x].
Qed.

(** The worker, with the state of [process_file] named. *)
Lemma worker_unfold (lim : limits) can_write generate now rs d p :
  _process_single_file lim can_write generate now rs d p
  = let pf := process_file lim rs (files d) generate now.1 p in
    match pf.2 with
    | Some (c :: r) =>
        let w := write_text can_write d (documented_file (gen rs) p) (c :: r) in
        match w.2 with
        | None =>
            let m := mark_file_processed (gen rs) w.1 now.2 p true None in
            (set_gen pf.1 m.1.1, m.1.2, true)
        | Some _ => record_failed pf.1 w.1 now.2 p
        end
    | _ => record_failed pf.1 d now.2 p
    end.
Proof.
  unfold _process_single_file.
  pose proof (gen_process_file lim rs (files d) generate now.1 p) as Hg.
  destruct (process_file lim rs (files d) generate now.1 p) as [rs1 res].
  cbn [fst snd] in *. destruct res as [[|c r]|]; [done| |done].
  rewrite Hg. destruct (write_text _ _ _ _) as [d1 [x|]]; [done|].
  cbn [fst snd]. pose proof (mark_success_no_exception (gen rs) d1 now.2 p) as Hm.
  destruct (mark_file_processed _ _ _ _ true None) as [[g2 d2] [x|]]; [done|done].
Qed.

Lemma write_text_exists can_write d out content :
  (write_text can_write d out content).2 = None →
  path_exists (files (write_text can_write d out content).1) out = true.
Proof.
  unfold write_text. destruct (can_write out); [|done].
  destruct (Utf8.encode content); [|done]. intros _. cbn [fst files].
  unfold path_exists. apply bool_decide_eq_true. rewrite lookup_insert_eq. by eexists.
Qed.

Lemma files_mark_file_processed g d now p success content :
  files (mark_file_processed g d now p success content).1.2 = files d.
Proof.
  unfold mark_file_processed. destruct success.
  - destruct (success_hash d p content); cbn [fst snd]; [|done].
    apply files_save_manifest.
  - cbn [fst snd]. apply files_save_manifest.
Qed.

Lemma mark_failure_manifest g d now p :
  processed_files (manifest (mark_file_processed g d now p false None).1.1)
  = processed_files (manifest g)
  ∧ path_str p
    ∈ default [] (failed_files
                    (manifest (mark_file_processed g d now p false None).1.1)).
Proof.
  unfold mark_file_processed. cbn. split; [done|].
  case_bool_decide; [done|]. apply elem_of_app. right.
  by apply list_elem_of_singleton.
Qed.

End Worker.

(** X17. The worker never raises and records what it returns.  When it
    returns true the manifest has a fresh record for the path, with the
    provider and the file name, the output file exists, and neither
    failed list has changed; when it returns false the path is in the
    manifest's failed list and the processed-files map is as before. *)
Theorem worker_records_outcome (lim : limits) (can_write : str → bool) (generate : backend)
    (now : str * str) (rs : run_state) (d : disk) (p : Path) :
  let r := _process_single_file lim can_write generate now rs d p in
  let m' := manifest (gen r.1.1) in
  if r.2 then
    (∃ h, default ∅ (processed_files m') !! path_str p
          = Some (ManifestEntry now.2 (provider_name (gen rs)) h (path_name p)))
    ∧ path_exists (files r.1.2) (documented_file (gen rs) p) = true
    ∧ self_failed_files r.1.1 = self_failed_files rs
    ∧ failed_files m' = failed_files (manifest (gen rs))
  else
    path_str p ∈ default [] (failed_files m')
    ∧ processed_files m' = processed_files (manifest (gen rs)).
Proof.
  cbn zeta. rewrite worker_unfold. cbn zeta.
  pose proof (gen_process_file lim rs (files d) generate now.1 p) as Hg.
  pose proof (process_file_failed_files lim rs (files d) generate now.1 p) as Hff.
  destruct (process_file lim rs (files d) generate now.1 p) as [rs1 res].
  cbn [fst snd] in *.
  assert (∀ d0, let r := record_failed rs1 d0 now.2 p in
            path_str p ∈ default [] (failed_files (manifest (gen r.1.1)))
            ∧ processed_files (manifest (gen r.1.1))
              = processed_files (manifest (gen rs))) as Hfail.
  { intros d0. cbn zeta. rewrite record_failed_spec. cbn [fst snd gen set_gen].
    destruct (mark_failure_manifest (gen rs1) d0 now.2 p) as [H1 H2].
    split; [done|]. by rewrite H1, Hg. }
  destruct res as [[|c r]|]; [apply Hfail| |apply Hfail].
  pose proof (write_text_exists can_write d (documented_file (gen rs) p) (c :: r))
    as Hex.
  destruct (write_text can_write d (documented_file (gen rs) p) (c :: r))
    as [d1 [x|]]; cbn [fst snd] in *; [apply Hfail|].
  specialize (Hex eq_refl). cbn [fst snd gen set_gen].
  rewrite files_mark_file_processed. split_and!; [| done | done |].
  - unfold mark_file_processed. rewrite success_hash_without_content.
    cbn. rewrite lookup_insert_eq. by eexists.
  - unfold mark_file_processed. by rewrite success_hash_without_content.
Qed.

(** X18. A file the worker reports as processed is skipped by the next
    check on the disk it left, in incremental mode, whenever the source
    can then be read and hashed. *)
Theorem processed_file_is_skipped_next (lim : limits) (can_write : str → bool)
    (generate : backend) (now : str * str) (rs rs' : run_state) (d d' : disk)
    (p : Path) (h : str) :
  incremental (gen rs) = true →
  _process_single_file lim can_write generate now rs d p = (rs', d', true) →
  (txt ← read_text (files d') (path_str p); compute_code_hash txt) = Ok h →
  is_file_processed (gen rs') (files d') p = true.
Proof.
  intros Hinc. rewrite worker_unfold. cbn zeta.
  pose proof (gen_process_file lim rs (files d) generate now.1 p) as Hg.
  destruct (process_file lim rs (files d) generate now.1 p) as [rs1 res].
  cbn [fst snd] in *.
  destruct res as [[|c r]|]; try (rewrite record_failed_spec; by intros [= _ _]).
  pose proof (write_text_exists can_write d (documented_file (gen rs) p) (c :: r))
    as Hex.
  destruct (write_text can_write d (documented_file (gen rs) p) (c :: r))
    as [d1 [x|]]; cbn [fst snd] in *;
    [rewrite record_failed_spec; by intros [= _ _]|].
  specialize (Hex eq_refl). intros Heq Hh.
  pose proof (f_equal (λ x, x.1.1) Heq) as Hrs.
  pose proof (f_equal (λ x, x.1.2) Heq) as Hd.
  cbn [fst snd] in Hrs, Hd. subst rs' d'. clear Heq.
  rewrite files_mark_file_processed in Hh |- *.
  cbn [gen set_gen]. unfold mark_file_processed.
  rewrite success_hash_without_content, Hh. cbn [fst snd].
  rewrite (is_file_processed_recorded _ (files d1) p
             (ManifestEntry now.2 (provider_name (gen rs)) (Some h) (path_name p)));
    [|done|cbn; by rewrite lookup_insert_eq].
  change (documented_file (set_manifest (gen rs) _) p)
    with (documented_file (gen rs) p).
  rewrite Hex, Hh. cbn. by apply bool_decide_eq_true.
Qed.

Lemma processed_file_is_skipped_next_witness :
  let p := MkPath (py "lib/foo.rb") (py "foo.rb") in
  let rs := RunState (Generator true (py "mock") (py "out")
                        (Manifest None None (py "t0"))) ∅ [] in
  let d := Disk {[py "lib/foo.rb" := Readable (join_nl [py "def foo(x)"; py "end"])]}
                None true in
  let r := _process_single_file default_limits (λ _, true) mock_backend (py "t1", py "t2")
             rs d p in
  r.2 = true
  ∧ files r.1.2 !! py "out/documented/foo.rb"
    = Some (Readable (join_nl [py "# @param x"; py "def foo(x)"; py "end"]))
  ∧ is_file_processed (gen r.1.1) (files r.1.2) p = true.
Proof.
  intros p rs d r. split; [vm_compute; reflexivity|].
  split; [vm_compute; reflexivity|].
  apply (processed_file_is_skipped_next default_limits (λ _, true) mock_backend
           (py "t1", py "t2") rs r.1.1 d r.1.2 p (py "20f1ea2d64857a5f")).
  - reflexivity.
  - vm_compute. reflexivity.
  - vm_compute. reflexivity.
Defined.

(** X19. When [process_file] has produced a text but the text is empty
    or cannot be written, the worker returns false and lists the path as
    failed in the manifest, yet does not add the file to
    [self.failed_files], the list the statistics count. *)
Theorem silent_failure_of_worker (lim : limits) (can_write : str → bool) (generate : backend)
    (now : str * str) (rs : run_state) (d : disk) (p : Path) (doc : str) :
  (process_file lim rs (files d) generate now.1 p).2 = Some doc →
  doc = []
  ∨ (write_text can_write d (documented_file (gen rs) p) doc).2 ≠ None →
  let r := _process_single_file lim can_write generate now rs d p in
  r.2 = false
  ∧ self_failed_files r.1.1 = self_failed_files rs
  ∧ path_str p ∈ default [] (failed_files (manifest (gen r.1.1))).
Proof.
  intros Hdoc Hbad. cbn zeta. rewrite worker_unfold. cbn zeta.
  pose proof (gen_process_file lim rs (files d) generate now.1 p) as Hg.
  pose proof (process_file_failed_files lim rs (files d) generate now.1 p) as Hff.
  rewrite Hdoc in Hff |- *.
  assert (∀ d0, let r := record_failed (process_file lim rs (files d) generate now.1 p).1
                           d0 now.2 p in
            r.2 = false ∧ self_failed_files r.1.1 = self_failed_files rs
            ∧ path_str p ∈ default [] (failed_files (manifest (gen r.1.1))))
    as Hfail.
  { intros d0. cbn zeta. rewrite record_failed_spec. cbn [fst snd gen set_gen].
    split; [done|]. split; [done|]. apply mark_failure_manifest. }
  destruct doc as [|c r]; [apply Hfail|].
  destruct Hbad as [?|Hw]; [done|].
  destruct (write_text _ _ _ _) as [d1 [x|]]; cbn [fst snd] in *; [apply Hfail|done].
Qed.

Lemma silent_failure_of_worker_witness :
  let p := MkPath (py "lib/foo.rb") (py "foo.rb") in
  let rs := RunState (Generator true (py "mock") (py "out")
                        (Manifest None None (py "t0"))) ∅ [] in
  let d := Disk {[py "lib/foo.rb" := Readable (join_nl [py "def foo(x)"; py "end"])]}
                None true in
  let r := _process_single_file default_limits (λ _, false) mock_backend (py "t1", py "t2")
             rs d p in
  r.2 = false ∧ self_failed_files r.1.1 = []
  ∧ failed_files (manifest (gen r.1.1)) = Some [py "lib/foo.rb"].
Proof.
  intros p rs d r.
  destruct (silent_failure_of_worker default_limits (λ _, false) mock_backend
              (py "t1", py "t2") rs d p
              (join_nl [py "# @param x"; py "def foo(x)"; py "end"]))
    as (H1 & H2 & _); [vm_compute; reflexivity | right; discriminate |].
  split; [exact H1|]. split; [exact H2|]. vm_compute. reflexivity.
Defined.

(** ** The sequential loop *)

Section Sequential.

Implicit Types (rs : run_state) (d : disk) (fs : list Path).

Lemma process_sequential_cons (lim : limits) can_write generate clock rs d n p fs :
  process_sequential lim can_write generate clock rs d n (p :: fs)
  = let pf := process_file lim rs (files d) generate (clock p).1 p in
    match pf.2 with
    | Some (c :: r) =>
        let w := write_text can_write d (documented_file (gen rs) p) (c :: r) in
        match w.2 with
        | None =>
            let m := mark_file_processed (gen rs) w.1 (clock p).2 p true None in
            process_sequential lim can_write generate clock (set_gen pf.1 m.1.1)
                               m.1.2 (S n) fs
        | Some e => Raise e
        end
    | _ =>
        let m := mark_file_processed (gen rs) d (clock p).2 p false None in
        process_sequential lim can_write generate clock (set_gen pf.1 m.1.1)
                           m.1.2 n fs
    end.
Proof.
  cbn [process_sequential]. cbn zeta.
  pose proof (gen_process_file lim rs (files d) generate (clock p).1 p) as Hg.
  destruct (process_file lim rs (files d) generate (clock p).1 p) as [rs1 res].
  cbn [fst snd] in *. rewrite Hg.
  assert (∀ k, match mark_file_processed (gen rs) d (clock p).2 p false None with
               | (g2, d2, None) =>
                   process_sequential lim can_write generate clock (set_gen rs1 g2) d2 k fs
               | (_, _, Some e) => Raise e
               end
               = process_sequential lim can_write generate clock
                   (set_gen rs1 (mark_file_processed (gen rs) d (clock p).2 p false None).1.1)
                   (mark_file_processed (gen rs) d (clock p).2 p false None).1.2 k fs)
    as Hfail by done.
  destruct res as [[|c r]|]; [apply Hfail| |apply Hfail].
  destruct (write_text _ _ _ _) as [d1 [x|]]; [done|]. cbn [fst snd].
  pose proof (mark_success_no_exception (gen rs) d1 (clock p).2 p) as Hm.
  by destruct (mark_file_processed _ _ _ _ true None) as [[g2 d2] [x|]].
Qed.

End Sequential.

Lemma process_sequential_worker (lim : limits) (can_write : str → bool)
    (generate : backend) (clock : Path → str * str) (fs : list Path) :
  ∀ (rs : run_state) (d : disk) (n : nat) (x : run_state * disk * nat),
    process_sequential lim can_write generate clock rs d n fs = Ok x →
    process_with_worker lim can_write generate clock rs d n fs = x.
Proof.
  induction fs as [|p fs IH]; intros rs d n x; [by intros [= <-]|].
  rewrite process_sequential_cons. cbn [process_with_worker].
  rewrite worker_unfold. cbn zeta.
  pose proof (gen_process_file lim rs (files d) generate (clock p).1 p) as Hg.
  destruct (process_file lim rs (files d) generate (clock p).1 p) as [rs1 res].
  cbn [fst snd] in *.
  destruct res as [[|c r]|].
  - rewrite record_failed_spec, Hg. cbn beta iota zeta. apply IH.
  - destruct (write_text _ _ _ _) as [d1 [e|]]; cbn [fst snd]; [done|].
    cbn beta iota zeta. apply IH.
  - rewrite record_failed_spec, Hg. cbn beta iota zeta. apply IH.
Qed.

(** X20. Whenever the sequential loop runs to its end, it leaves the
    state, the disk and the count that the worker leaves when applied to
    the same files in the same order: the two paths differ only where a
    write fails, which ends the sequential run. *)
Theorem sequential_agrees_with_worker (lim : limits) (can_write : str → bool)
    (generate : backend) (clock : Path → str * str) (fs : list Path)
    (rs : run_state) (d : disk) (n : nat) (x : run_state * disk * nat) :
  process_sequential lim can_write generate clock rs d n fs = Ok x →
  process_with_worker lim can_write generate clock rs d n fs = x.
Proof. apply process_sequential_worker. Qed.

Lemma sequential_agrees_with_worker_witness :
  let fs := [MkPath (py "lib/foo.rb") (py "foo.rb");
             MkPath (py "lib/bad.rb") (py "bad.rb")] in
  let rs := RunState (Generator true (py "mock") (py "out")
                        (Manifest None None (py "t0"))) ∅ [] in
  let d := Disk {[py "lib/foo.rb" := Readable (join_nl [py "def foo(x)"; py "end"]);
                  py "lib/bad.rb" := Readable (py "x = 1")]} None true in
  ∃ x,
    process_sequential default_limits (λ _, true) mock_backend (λ _, (py "t1", py "t2"))
                       rs d 0 fs = Ok x
    ∧ process_with_worker default_limits (λ _, true) mock_backend (λ _, (py "t1", py "t2"))
                          rs d 0 fs = x
    ∧ x.2 = 1%nat.
Proof.
  intros fs rs d.
  destruct (process_sequential default_limits (λ _, true) mock_backend
              (λ _, (py "t1", py "t2")) rs d 0 fs) as [x|e] eqn:Hrun;
    [|by vm_compute in Hrun].
  exists x. split; [done|].
  split; [by apply sequential_agrees_with_worker|].
  vm_compute in Hrun. by injection Hrun as <-.
Defined.

(** ** The statistics of a sequential run *)

Section Accounting.

Implicit Types (rs : run_state) (d : disk) (g : generator) (fs : list Path).

Lemma recorded_mark g d now p success q :
  recorded (manifest g) q →
  recorded (manifest (mark_file_processed g d now p success None).1.1) q.
Proof.
  unfold recorded, mark_file_processed. destruct success.
  - rewrite success_hash_without_content. cbn.
    intros [H|H]; [left|by right].
    destruct (decide (path_str p = q)) as [->|Hne];
      [by rewrite lookup_insert_eq | by rewrite lookup_insert_ne].
  - cbn. intros [H|H]; [by left|right].
    case_bool_decide; [done|]. apply elem_of_app. by left.
Qed.

Lemma recorded_mark_self g d now p success :
  recorded (manifest (mark_file_processed g d now p success None).1.1)
           (path_str p).
Proof.
  unfold recorded. destruct success.
  - unfold mark_file_processed. rewrite success_hash_without_content. cbn.
    left. by rewrite lookup_insert_eq.
  - right. apply mark_failure_manifest.
Qed.

Lemma provider_name_mark g d now p success content :
  provider_name (mark_file_processed g d now p success content).1.1
  = provider_name g.
Proof.
  unfold mark_file_processed. destruct success; [|done].
  by destruct (success_hash d p content).
Qed.

Lemma is_file_processed_true_recorded g fsys p :
  is_file_processed g fsys p = true → recorded (manifest g) (path_str p).
Proof.
  unfold is_file_processed, recorded.
  destruct (negb (incremental g)); [done|].
  destruct (default ∅ (processed_files (manifest g)) !! path_str p); [|done].
  intros _. by left.
Qed.

Lemma select_files_spec g fsys fs todo skipped :
  select_files g fsys fs = (todo, skipped) →
  (length todo + skipped = length fs)%nat
  ∧ Forall (λ p, p ∈ todo ∨ recorded (manifest g) (path_str p)) fs.
Proof.
  revert todo skipped. induction fs as [|p fs IH]; intros todo skipped.
  - intros [= <- <-]. by split.
  - cbn [select_files]. destruct (select_files g fsys fs) as [todo' k].
    destruct (IH _ _ eq_refl) as [Hlen Hall].
    destruct (is_file_processed g fsys p) eqn:Hp; intros [= <- <-].
    + split; [cbn [length]; lia|]. constructor; [|done].
      right. by eapply is_file_processed_true_recorded.
    + split; [cbn [length]; lia|]. constructor; [left; by left|].
      eapply Forall_impl; [exact Hall|]. intros q [Hq|Hq]; [left; by right|by right].
Qed.

(** The loop only adds records, records every file it is given, and
    counts each file at most once. *)
Lemma process_sequential_invariant (lim : limits) can_write generate clock fs :
  ∀ rs d n rs' d' n',
    process_sequential lim can_write generate clock rs d n fs = Ok (rs', d', n') →
    (∀ q, recorded (manifest (gen rs)) q → recorded (manifest (gen rs')) q)
    ∧ Forall (λ p, recorded (manifest (gen rs')) (path_str p)) fs
    ∧ (n' + length (self_failed_files rs')
       ≤ n + length (self_failed_files rs) + length fs)%nat
    ∧ provider_name (gen rs') = provider_name (gen rs).
Proof.
  induction fs as [|p fs IH]; intros rs d n rs' d' n'.
  { intros [= <- <- <-]. split_and!; [done|done|cbn; lia|done]. }
  rewrite process_sequential_cons. cbn zeta.
  pose proof (gen_process_file lim rs (files d) generate (clock p).1 p) as Hg.
  pose proof (process_file_failed_files lim rs (files d) generate (clock p).1 p) as Hff.
  destruct (process_file lim rs (files d) generate (clock p).1 p) as [rs1 res].
  cbn [fst snd] in *.
  assert (∀ d0 success k,
    (k + length (self_failed_files rs1)
     ≤ S n + length (self_failed_files rs))%nat →
    process_sequential lim can_write generate clock
      (set_gen rs1 (mark_file_processed (gen rs) d0 (clock p).2 p success None).1.1)
      (mark_file_processed (gen rs) d0 (clock p).2 p success None).1.2 k fs
    = Ok (rs', d', n') →
    (∀ q, recorded (manifest (gen rs)) q → recorded (manifest (gen rs')) q)
    ∧ Forall (λ p, recorded (manifest (gen rs')) (path_str p)) (p :: fs)
    ∧ (n' + length (self_failed_files rs')
       ≤ n + length (self_failed_files rs) + length (p :: fs))%nat
    ∧ provider_name (gen rs') = provider_name (gen rs)) as Hstep.
  { intros d0 success k Hk Hrun.
    apply IH in Hrun as (Hmono & Hall & Hcount & Hprov).
    cbn [gen set_gen self_failed_files] in *. split_and!.
    - intros q Hq. by apply Hmono, recorded_mark.
    - constructor; [|done]. apply Hmono, recorded_mark_self.
    - cbn [length]. lia.
    - by rewrite Hprov, provider_name_mark. }
  destruct res as [[|c r]|].
  - apply Hstep. rewrite Hff. lia.
  - destruct (write_text _ _ _ _) as [d1 [e|]]; cbn [fst snd]; [done|].
    apply Hstep. rewrite Hff. lia.
  - apply Hstep. rewrite Hff, length_app. cbn [length]. lia.
Qed.

End Accounting.

(** X21. A sequential run that ends normally on a non-empty list of
    files reports as total the files left after the [critranks]
    exclusion, as failed the length of [self.failed_files], and never
    more processed and newly failed files together than the total; and
    every one of those files then has a record in the manifest, as
    processed or as failed. *)
Theorem sequential_run_accounts_for_files (lim : limits) (can_write : str → bool)
    (generate : backend) (clock : Path → str * str) (rs rs' : run_state)
    (d d' : disk) (all_ruby_files : list Path) (processed failed total : nat)
    (prov : str) (ff : list str) :
  process_directory_sequential lim can_write generate clock rs d all_ruby_files
  = Ok (rs', d', RunStats processed failed total prov ff) →
  total = length (exclude_critranks all_ruby_files)
  ∧ ff = self_failed_files rs'
  ∧ failed = length ff
  ∧ prov = provider_name (gen rs)
  ∧ (processed + failed ≤ total + length (self_failed_files rs))%nat
  ∧ Forall (λ p, recorded (manifest (gen rs')) (path_str p))
           (exclude_critranks all_ruby_files).
Proof.
  unfold process_directory_sequential.
  destruct (exclude_critranks all_ruby_files) as [|p0 ps] eqn:Hex; [done|].
  destruct (select_files (gen rs) (files d) (p0 :: ps)) as [todo skipped] eqn:Hsel.
  apply select_files_spec in Hsel as [Hlen Hsel].
  destruct (process_sequential lim _ _ _ _ _ _ _) as [[[rs1 d1] n1]|e] eqn:Hrun;
    [rewrite bind_Ok|done].
  intros [= <- <- <- <- <- <- <-].
  apply process_sequential_invariant in Hrun as (Hmono & Hall & Hcount & Hprov).
  split_and!; [done|done|done|by rewrite Hprov|cbn [length] in *; lia|].
  rewrite Forall_forall in Hsel, Hall |- *. intros p Hp.
  destruct (Hsel p Hp) as [Hin|Hrec]; [by apply Hall | by apply Hmono].
Qed.

Lemma sequential_run_accounts_for_files_witness :
  let all := [MkPath (py "lib/foo.rb") (py "foo.rb");
              MkPath (py "lib/critranks/t.rb") (py "t.rb");
              MkPath (py "lib/bad.rb") (py "bad.rb");
              MkPath (py "lib/old.rb") (py "old.rb")] in
  let info := ManifestEntry (py "t0") (py "mock") (Some (py "9067770c5cb46d61"))
                            (py "old.rb") in
  let rs := RunState (Generator true (py "mock") (py "out")
                        (Manifest (Some {[py "lib/old.rb" := info]}) None
                                  (py "t0"))) ∅ [] in
  let d := Disk {[py "lib/foo.rb" := Readable (join_nl [py "def foo(x)"; py "end"]);
                  py "lib/bad.rb" := Readable (py "x = 1");
                  py "lib/old.rb" := Readable (py "y = 2");
                  py "out/documented/old.rb" := Readable (py "y = 2")]}
                None true in
  ∃ rs' d',
    process_directory_sequential default_limits (λ _, true) mock_backend
      (λ _, (py "t1", py "t2")) rs d all
    = Ok (rs', d', RunStats 2 1 3 (py "mock") [py "bad.rb"])
    ∧ Forall (λ p, recorded (manifest (gen rs')) (path_str p))
             (exclude_critranks all).
Proof.
  intros all info rs d.
  destruct (process_directory_sequential default_limits (λ _, true) mock_backend
              (λ _, (py "t1", py "t2")) rs d all)
    as [[[rs' d'] st]|e] eqn:Hrun; [|by vm_compute in Hrun].
  assert (st = RunStats 2 1 3 (py "mock") [py "bad.rb"]) as ->.
  { vm_compute in Hrun. by injection Hrun as _ _ <-. }
  exists rs', d'. split; [done|].
  by destruct (sequential_run_accounts_for_files default_limits _ _ _ _ _ _ _ _ _ _ _ _ _ Hrun)
    as (_ & _ & _ & _ & _ & H).
Defined.

(** ** The manifest on disk *)

Section Saved.

Implicit Types (rs : run_state) (d : disk) (g : generator) (p : Path).

Lemma mark_saves g d now p success :
  manifest_writable d = true →
  manifest_json (mark_file_processed g d now p success None).1.2
  = Some (manifest (mark_file_processed g d now p success None).1.1)
  ∧ manifest_writable (mark_file_processed g d now p success None).1.2 = true.
Proof.
  intros Hw. unfold mark_file_processed. destruct success.
  - rewrite success_hash_without_content. cbn [fst snd].
    unfold save_manifest. by rewrite Hw.
  - cbn [fst snd]. unfold save_manifest. by rewrite Hw.
Qed.

Lemma write_text_manifest can_write d out content :
  manifest_writable (write_text can_write d out content).1 = manifest_writable d.
Proof.
  unfold write_text. destruct (can_write out); [|done].
  by destruct (Utf8.encode content).
Qed.

End Saved.

(** X14. Whatever happens to a file in the worker, the manifest is saved
    before the worker returns: with a writable [manifest.json], the copy
    on disk is the manifest in memory, on success and on every kind of
    failure. *)
Theorem manifest_on_disk_after_worker (lim : limits) (can_write : str → bool)
    (generate : backend) (now : str * str) (rs : run_state) (d : disk)
    (p : Path) :
  manifest_writable d = true →
  let r := _process_single_file lim can_write generate now rs d p in
  manifest_json r.1.2 = Some (manifest (gen r.1.1))
  ∧ manifest_writable r.1.2 = true.
Proof.
  intros Hw. cbn zeta. rewrite worker_unfold. cbn zeta.
  pose proof (gen_process_file lim rs (files d) generate now.1 p) as Hg.
  destruct (process_file lim rs (files d) generate now.1 p) as [rs1 res].
  cbn [fst snd] in *.
  assert (∀ d0, manifest_writable d0 = true →
            let r := record_failed rs1 d0 now.2 p in
            manifest_json r.1.2 = Some (manifest (gen r.1.1))
            ∧ manifest_writable r.1.2 = true) as Hfail.
  { intros d0 Hw0. cbn zeta. rewrite record_failed_spec.
    cbn [fst snd gen set_gen]. by apply mark_saves. }
  destruct res as [[|c r]|]; [by apply Hfail| |by apply Hfail].
  pose proof (write_text_manifest can_write d (documented_file (gen rs) p) (c :: r))
    as Hww.
  destruct (write_text can_write d (documented_file (gen rs) p) (c :: r))
    as [d1 [x|]]; cbn [fst snd] in *.
  - apply Hfail. congruence.
  - cbn [gen set_gen]. apply mark_saves. congruence.
Qed.

Lemma manifest_on_disk_after_worker_witness :
  let p := MkPath (py "lib/bad.rb") (py "bad.rb") in
  let rs := RunState (Generator true (py "mock") (py "out")
                        (Manifest None None (py "t0"))) ∅ [] in
  let d := Disk {[py "lib/bad.rb" := Readable (py "x = 1")]} None true in
  manifest_json
    (_process_single_file default_limits (λ _, true) mock_backend (py "t1", py "t2") rs d p).1.2
  = Some (Manifest None (Some [py "lib/bad.rb"]) (py "t0")).
Proof.
  intros p rs d.
  destruct (manifest_on_disk_after_worker default_limits (λ _, true) mock_backend
              (py "t1", py "t2") rs d p eq_refl) as [-> _].
  vm_compute. reflexivity.
Defined.

(** ** Provider names *)

(** X22. A provider name that passes [validate_environment] is one the
    factory has a class for, so [create_provider] does not reject it; it
    is never [anthropic], and the number of workers chosen for it is 8 or
    1: the 4 workers of [anthropic] are out of reach of [main].  A name
    the factory rejects is reported as not valid, with no variable
    listed as missing. *)
Theorem validated_provider_is_known (lower : str → str) (env : environ)
    (name : str) :
  (valid (validate_environment lower env (Some name)) = true →
     (∃ cls, provider_class_of lower env (Some name) = Ok cls)
     ∧ name ≠ py "anthropic"
     ∧ (init_parallel_workers name None = 8%nat
        ∨ init_parallel_workers name None = 1%nat))
  ∧ (∀ e, provider_class_of lower env (Some name) = Raise e →
       e = ValueError
       ∧ valid (validate_environment lower env (Some name)) = false
       ∧ missing (validate_environment lower env (Some name)) = []).
Proof.
  unfold validate_environment, provider_class_of, init_parallel_workers.
  cbn [factory_provider_name].
  repeat case_bool_decide; subst; try discriminate; split;
    try (intros e [= <-]; done); try (intros e; discriminate); try done.
  all: repeat (match goal with |- context [if ?b then _ else _] => destruct b end);
    cbn [valid]; intros; try discriminate;
    (split; [by eexists|]); split; auto; discriminate.
Qed.
